(** * UpProxy.js: the aggregation / CIDR-filter / shuffle / publish pipeline

    A shallow embedding of [.github/workflows/UpProxy.js] together with the
    properties of its specification.  The script downloads an archive of
    address lists, folds their lines into a [Set], drops every address that
    lies in one of the [bannedCidrs], shuffles the survivors and uploads the
    result through the GitHub contents API.

    Layout:
    - [JS]: the fragment of ECMAScript the script relies on (strings as
      sequences of UTF-16 code units, Numbers restricted to the values that
      integer arithmetic can produce, [parseInt], the 32-bit operators,
      [String.prototype.split], [trim], insertion-ordered [Set]);
    - the helpers [ipToLong], [isIpInCidr];
    - the stages of [main] and [uploadToGitHub] over an explicit world;
    - the properties. *)

From Stdlib Require Import ZArith Lia List Ascii String.
From stdpp Require Import base list strings pretty gmap.

(** ** The ECMAScript fragment *)

Module JS.

Local Open Scope Z_scope.

(** A JavaScript string is a sequence of UTF-16 code units. *)
Abbreviation jsstring := (list N).

(** String literals of the source, which are all ASCII. *)
Definition lit (s : string) : jsstring :=
  map N_of_ascii (list_ascii_of_string s).

(** The values that reach the helpers: a string, or [undefined] (the second
    element of a destructured one-element array). *)
Inductive value : Type :=
  | VUndefined
  | VString (s : jsstring).

(** Completion records: a JavaScript call either returns or throws. *)
Inductive exn : Type :=
  | TypeError.

Inductive result (A : Type) : Type :=
  | Ok (a : A)
  | Throw (e : exn).
Arguments Ok {A} a.
Arguments Throw {A} e.

#[export] Instance result_ret : MRet result := fun A a => Ok a.
#[export] Instance result_bind : MBind result := fun A B k r =>
  match r with
  | Ok a => k a
  | Throw e => Throw e
  end.

(** *** Numbers

    Every Number the helpers compute is an integer-valued double, an
    infinity or NaN: [parseInt] yields an integer (or NaN), and [+], [-],
    [<<], [~], [&], [>>>] keep that shape.  [Fin z] stands for the double
    whose value is the integer [z]; the two zeros are identified, since none
    of the operators used here tells them apart. *)
Inductive number : Type :=
  | NaN
  | PInf
  | NInf
  | Fin (z : Z).

(** Round an integer to the nearest double (ties to even); magnitudes that
    round to [2^1024] or more overflow to an infinity. *)
Definition roundDouble (z : Z) : number :=
  let a := Z.abs z in
  if a <? 2 ^ 53 then Fin z
  else
    let e := Z.log2 a - 52 in
    let q := Z.shiftr a e in
    let r := a - Z.shiftl q e in
    let half := 2 ^ (e - 1) in
    let q' := if r <? half then q
              else if half <? r then q + 1
              else if Z.even q then q else q + 1 in
    let m := Z.shiftl q' e in
    if 2 ^ 1024 <=? m then (if z <? 0 then NInf else PInf)
    else Fin (Z.sgn z * m).

Definition neg (x : number) : number :=
  match x with
  | NaN => NaN
  | PInf => NInf
  | NInf => PInf
  | Fin z => Fin (- z)
  end.

(** [x + y] on Numbers. *)
Definition add (x y : number) : number :=
  match x, y with
  | NaN, _ | _, NaN => NaN
  | PInf, NInf | NInf, PInf => NaN
  | PInf, _ | _, PInf => PInf
  | NInf, _ | _, NInf => NInf
  | Fin a, Fin b => roundDouble (a + b)
  end.

(** [x - y] on Numbers. *)
Definition sub (x y : number) : number := add x (neg y).

(** ToUint32 and ToInt32: NaN and the infinities become 0, a finite value
    is reduced modulo [2^32]. *)
Definition toUint32 (x : number) : Z :=
  match x with
  | Fin z => z mod 2 ^ 32
  | _ => 0
  end.

Definition wrapInt32 (z : Z) : Z :=
  let u := z mod 2 ^ 32 in
  if 2 ^ 31 <=? u then u - 2 ^ 32 else u.

Definition toInt32 (x : number) : Z :=
  match x with
  | Fin z => wrapInt32 z
  | _ => 0
  end.

(** [x << y]: the shift count is ToUint32(y) masked to five bits. *)
Definition shl (x y : number) : number :=
  Fin (wrapInt32 (Z.shiftl (toInt32 x) (toUint32 y mod 32))).

(** [x >>> y]. *)
Definition ushr (x y : number) : number :=
  Fin (Z.shiftr (toUint32 x) (toUint32 y mod 32)).

(** [~x]. *)
Definition bitnot (x : number) : number :=
  Fin (Z.lnot (toInt32 x)).

(** [x & y]. *)
Definition band (x y : number) : number :=
  Fin (Z.land (toInt32 x) (toInt32 y)).

(** [x === y] on Numbers: NaN equals nothing. *)
Definition strictEq (x y : number) : bool :=
  match x, y with
  | Fin a, Fin b => a =? b
  | PInf, PInf | NInf, NInf => true
  | _, _ => false
  end.

(** *** Strings *)

(** WhiteSpace and LineTerminator code points, as skipped by [trim] and by
    [parseInt]. *)
Definition isWhiteSpace (c : N) : bool :=
  bool_decide (c ∈ [9; 10; 11; 12; 13; 32; 160; 5760; 8232; 8233; 8239;
                    8287; 12288; 65279]%N)
  || ((8192 <=? c)%N && (c <=? 8202)%N).

Fixpoint trimStart (s : jsstring) : jsstring :=
  match s with
  | c :: t => if isWhiteSpace c then trimStart t else s
  | [] => []
  end.

Definition trimEnd (s : jsstring) : jsstring := rev (trimStart (rev s)).

(** [s.trim()]. *)
Definition trim (s : jsstring) : jsstring := trimEnd (trimStart s).

(** [s.split(sep)] for a one-character separator: the pieces between the
    occurrences of [sep]; never the empty array. *)
Fixpoint split (sep : N) (s : jsstring) : list jsstring :=
  match s with
  | [] => [[]]
  | c :: t =>
      if (c =? sep)%N then [] :: split sep t
      else match split sep t with
           | h :: r => (c :: h) :: r
           | [] => [[c]]
           end
  end.

(** [s.split(/\r?\n/)]: a piece ends at a line feed, or at a carriage return
    directly followed by one. *)
Fixpoint splitLines (s : jsstring) : list jsstring :=
  match s with
  | [] => [[]]
  | c :: t =>
      if (c =? 10)%N then [] :: splitLines t
      else
        match t with
        | c' :: t' =>
            if (c =? 13)%N && (c' =? 10)%N then
              match splitLines t with
              | _ :: r => [] :: r
              | [] => [[]]
              end
            else
              match splitLines t with
              | h :: r => (c :: h) :: r
              | [] => [[c]]
              end
        | [] => [[c]]
        end
  end.

(** [s.endsWith(suffix)]. *)
Definition endsWith (s suffix : jsstring) : bool :=
  bool_decide (rev suffix = take (length suffix) (rev s)).

(** A method call on [undefined] throws a TypeError. *)
Definition split_method (v : value) (sep : N) : result (list jsstring) :=
  match v with
  | VUndefined => Throw TypeError
  | VString s => Ok (split sep s)
  end.

(** ToString. *)
Definition toString (v : value) : jsstring :=
  match v with
  | VUndefined => lit "undefined"
  | VString s => s
  end.

(** *** parseInt(v, 10) *)

Definition digitVal (c : N) : option Z :=
  if ((48 <=? c) && (c <=? 57))%N then Some (Z.of_N c - 48) else None.

(** The longest prefix of decimal digits. *)
Fixpoint takeDigits (s : jsstring) : list Z :=
  match s with
  | c :: t =>
      match digitVal c with
      | Some d => d :: takeDigits t
      | None => []
      end
  | [] => []
  end.

Definition decimal (ds : list Z) : Z :=
  fold_left (fun a d => 10 * a + d) ds 0.

(** [parseInt(v, 10)]: skip leading white space, read an optional sign, then
    the longest run of decimal digits; NaN when there is none.  The value is
    the rounded decimal (V8 rounds the exact value of the digits). *)
Definition parseInt (v : value) : number :=
  let s := trimStart (toString v) in
  let '(sign, s) :=
    match s with
    | c :: t =>
        if (c =? 45)%N then (-1, t)       (* '-' *)
        else if (c =? 43)%N then (1, t)   (* '+' *)
        else (1, s)
    | [] => (1, s)
    end in
  match takeDigits s with
  | [] => NaN
  | ds => roundDouble (sign * decimal ds)
  end.

(** *** Set, insertion-ordered as [Array.from] sees it *)

Definition set_add (x : jsstring) (s : list jsstring) : list jsstring :=
  if bool_decide (x ∈ s) then s else s ++ [x].

End JS.

Import JS.

(** ** The helpers of the script *)

Local Open Scope Z_scope.

Definition bannedCidrs : list jsstring :=
  map lit
    [ "101.x.x.x/15"; "141.101.64.0/18"; "172.64.0.0/13"; "162.158.0.0/15";
      "104.16.0.0/13"; "104.24.0.0/14"; "173.245.48.0/20"; "103.21.244.0/22";
      "103.22.200.0/22"; "103.31.4.0/22"; "188.114.96.0/20";
      "190.93.240.0/20"; "197.234.240.0/22"; "198.41.128.0/17";
      "131.0.72.0/22" ]%string.

(** The reducer [(res, octet) => (res << 8) + parseInt(octet, 10)]. *)
Definition pack (res : number) (octet : jsstring) : number :=
  add (shl res (Fin 8)) (parseInt (VString octet)).

(** [ipString.split('.').reduce(pack, 0) >>> 0] *)
Definition ipToLong (ipString : value) : result number :=
  octets ← split_method ipString 46%N;
  Ok (ushr (fold_left pack octets (Fin 0)) (Fin 0)).

(** [const [range, bits] = cidr.split('/')]: a missing element is
    [undefined]. *)
Definition element (parts : list jsstring) (i : nat) : value :=
  match parts !! i with
  | Some s => VString s
  | None => VUndefined
  end.

(** [~((1 << (32 - parseInt(bits, 10))) - 1) >>> 0] *)
Definition maskOf (bits : value) : number :=
  ushr (bitnot (sub (shl (Fin 1) (sub (Fin 32) (parseInt bits))) (Fin 1)))
       (Fin 0).

Definition isIpInCidr (ip cidr : value) : result bool :=
  parts ← split_method cidr 47%N;
  let range := element parts 0 in
  let bits := element parts 1 in
  let mask := maskOf bits in
  ipLong ← ipToLong ip;
  rangeLong ← ipToLong range;
  Ok (strictEq (band ipLong mask) (band rangeLong mask)).

Definition str (s : string) : value := VString (lit s).

(** ** The stages of [main] *)

(** Truthiness of the values at hand: [undefined] and the empty string are
    falsy, every other string is truthy. *)
Definition truthy (v : value) : bool :=
  match v with
  | VUndefined => false
  | VString [] => false
  | VString (_ :: _) => true
  end.

(** *** Stage 3: collecting the lines of the [.txt] files into a [Set]

    A directory entry is a name together with what [readFileSync] yields for
    it: its text, or [None] when the read throws (the warning branch). *)
Definition entry : Type := jsstring * option jsstring.

(** The body of [fileContent.split(/\r?\n/).forEach(line => ...)]. *)
Definition addLine (ipSet : list jsstring) (line : jsstring) : list jsstring :=
  let ip := trim line in
  if truthy (VString ip) then set_add ip ipSet else ipSet.

(** The body of [allFiles.forEach(fileName => ...)]. *)
Definition addFile (ipSet : list jsstring) (f : entry) : list jsstring :=
  let '(fileName, read) := f in
  if endsWith fileName (lit ".txt") then
    match read with
    | Some fileContent => fold_left addLine (splitLines fileContent) ipSet
    | None => ipSet
    end
  else ipSet.

Definition collect (allFiles : list entry) : list jsstring :=
  fold_left addFile allFiles [].

(** *** Stage 4: the filter

    The callback of [Array.from(ipSet).filter(ip => ...)], over any
    membership test that returns or throws.  Besides the verdict it yields
    the ranges the loop called the test on, in order. *)
Inductive verdict : Type :=
  | Retained   (* the loop ran to its end: [return true]       *)
  | Matched    (* [isIpInCidr] returned true: [return false]   *)
  | Caught.    (* the [catch] branch: [return false]           *)

Definition returned (v : verdict) : bool :=
  match v with
  | Retained => true
  | Matched | Caught => false
  end.

Section Filter.

Variable test : value → value → result bool.

Fixpoint check (ip : value) (cidrs : list jsstring)
  : list jsstring * verdict :=
  match cidrs with
  | [] => ([], Retained)
  | cidr :: rest =>
      match test ip (VString cidr) with
      | Ok true => ([cidr], Matched)
      | Ok false => let '(tested, v) := check ip rest in (cidr :: tested, v)
      | Throw _ => ([cidr], Caught)
      end
  end.

Definition keeps (cidrs : list jsstring) (ip : value) : bool :=
  returned (check ip cidrs).2.

Definition filterWith (cidrs : list jsstring) (ips : list value)
  : list value :=
  List.filter (keeps cidrs) ips.

End Filter.

(** The filter of the script: the test is [isIpInCidr], the ranges are
    [bannedCidrs]. *)
Definition filterIps (ips : list value) : list value :=
  filterWith isIpInCidr bannedCidrs ips.

(** *** Stage 5: the Fisher-Yates loop

    [[a[i], a[j]] = [a[j], a[i]]].  The loop only calls it with
    [j <= i < a.length], where both reads are defined; an index outside the
    array (which would make JavaScript read [undefined] and grow the array)
    leaves the list as it is here. *)
Definition swap {A} (i j : nat) (a : list A) : list A :=
  match a !! i, a !! j with
  | Some x, Some y => <[j := x]> (<[i := y]> a)
  | _, _ => a
  end.

(** [for (let i = n - 1; i > 0; i--)], where [draw i] is the value of
    [Math.floor(Math.random() * (i + 1))] in the iteration for [i]. *)
Fixpoint shuffleFrom {A} (draw : nat → nat) (i : nat) (a : list A) : list A :=
  match i with
  | O => a
  | S i' => shuffleFrom draw i' (swap i (draw i) a)
  end.

Definition shuffle {A} (draw : nat → nat) (a : list A) : list A :=
  shuffleFrom draw (length a - 1) a.

(** [a.join(sep)]: an [undefined] element contributes the empty string. *)
Definition joinItem (v : value) : jsstring :=
  match v with
  | VUndefined => []
  | VString s => s
  end.

Fixpoint join (sep : jsstring) (a : list value) : jsstring :=
  match a with
  | [] => []
  | [x] => joinItem x
  | x :: rest => joinItem x ++ sep ++ join sep rest
  end.

(** ** The process and its environment *)

Inductive http_method : Type := GET | PUT.

(** What the process does to the outside, in order.  Console output is left
    out. *)
Inductive event : Type :=
  | Http (m : http_method) (url : jsstring) (body : option (gmap string value))
  | FsCreateWriteStream (path : jsstring)
  | ZipExtractAll (path : jsstring)
  | FsReaddir
  | FsReadFile (path : jsstring)
  | FsMkdir (path : jsstring)
  | FsWriteFile (path : jsstring) (data : jsstring).

(** The settlement of [axios.get(apiUrl)]: a response, whose [data] is
    [None] when falsy and otherwise carries its [sha] property ([undefined]
    when there is none); or a rejection, with [error.response.status] when
    the error has a response. *)
Inductive lookupAnswer : Type :=
  | Responded (data : option value)
  | Rejected (status : option Z).

(** Everything the run reads from outside. *)
Record world : Type := World {
  env_GITHUB_TOKEN : value;
  env_GITHUB_REPOSITORY : value;
  download_ok : bool;
  extract_ok : bool;
  workDirEntries : list entry;
  draw : nat → nat;
  outputDirExists : bool;
  write_ok : bool;
  currentTime : jsstring;
  base64 : jsstring → jsstring;
  sha_lookup : lookupAnswer;
  put_ok : bool
}.

(** A computation emits events and then either goes on with a value or has
    called [process.exit]. *)
Inductive outcome (A : Type) : Type :=
  | Done (a : A)
  | Exited (code : Z).
Arguments Done {A} a.
Arguments Exited {A} code.

Definition io (A : Type) : Type := list event * outcome A.

#[export] Instance io_ret : MRet io := fun A a => ([], Done a).
#[export] Instance io_bind : MBind io := fun A B k m =>
  match m with
  | (t, Done a) => let '(t', o) := k a in (t ++ t', o)
  | (t, Exited c) => (t, Exited c)
  end.

Definition emit (e : event) : io unit := ([e], Done tt).
Definition emits (es : list event) : io unit := (es, Done tt).
Definition exit {A} (code : Z) : io A := ([], Exited code).

(** [try { ... } catch (error) { console.error(...); process.exit(1) }]
    around an external action that succeeds or throws. *)
Definition orExit (ok : bool) : io unit :=
  if ok then mret tt else exit 1.

Definition trace {A} (m : io A) : list event := m.1.

(** The exit status of the process: that of [process.exit], or 0 when the
    script runs to its end. *)
Definition exitCode {A} (m : io A) : Z :=
  match m.2 with
  | Done _ => 0
  | Exited c => c
  end.

(** *** uploadToGitHub

    [fileContent] is what [fs.readFileSync(localFilePath, 'utf-8')] returns:
    the text [main] has just written there. *)
Definition uploadToGitHub (w : world)
    (localFilePath fileContent repoPath : jsstring) (ipCount : nat) : io unit :=
  let commitMessage :=
    lit "Update " ++ repoPath ++ lit " - " ++ currentTime w
      ++ lit " (Total IPs: " ++ lit (pretty ipCount) ++ lit ")" in
  let githubToken := env_GITHUB_TOKEN w in
  let repository := env_GITHUB_REPOSITORY w in
  _ ← (if negb (truthy githubToken) || negb (truthy repository)
       then exit 1 else mret tt);
  _ ← emit (FsReadFile localFilePath);
  let contentBase64 := base64 w fileContent in
  let apiUrl :=
    lit "https://api.github.com/repos/" ++ toString repository
      ++ lit "/contents/" ++ repoPath in
  _ ← emit (Http GET apiUrl None);
  let existingFileSha :=
    match sha_lookup w with
    | Responded (Some sha) => if truthy sha then sha else VString []
    | Responded None => VString []
    | Rejected _ => VString []
    end in
  let payload : gmap string value :=
    <["content" := VString contentBase64]>
      (<["message" := VString commitMessage]> ∅) in
  let payload :=
    if truthy existingFileSha then <["sha" := existingFileSha]> payload
    else payload in
  _ ← emit (Http PUT apiUrl (Some payload));
  orExit (put_ok w).

(** *** main *)

Definition downloadUrl : jsstring := lit "https://zip.baipiao.eu.org/".
Definition zipFilePath : jsstring := lit "proxy.txt.zip".
Definition outputDir : jsstring := lit "BestProxy".
Definition outputFilePath : jsstring := lit "BestProxy/bestproxy.txt".
Definition repoOutputPath : jsstring := lit "BestProxy/bestproxy.txt".

(** The calls that the script wraps in [try]/[catch] succeed or fail as the
    world says; the other file-system calls ([readdirSync], [existsSync],
    [mkdirSync] and the read-back in [uploadToGitHub]) are taken to
    succeed. *)
Definition main (w : world) : io unit :=
  (* 1. download the archive *)
  _ ← emit (Http GET downloadUrl None);
  _ ← (if download_ok w then emit (FsCreateWriteStream zipFilePath)
       else exit 1);
  (* 2. extract it into the working directory *)
  _ ← emit (ZipExtractAll zipFilePath);
  _ ← orExit (extract_ok w);
  (* 3. read the .txt files and collect the lines *)
  _ ← emit FsReaddir;
  _ ← emits (FsReadFile <$>
               List.filter (fun n => endsWith n (lit ".txt"))
                           (fst <$> workDirEntries w));
  let ipSet := collect (workDirEntries w) in
  (* 4. filter: Array.from(ipSet).filter(...) *)
  let filteredIps := filterIps (VString <$> ipSet) in
  (* 5. shuffle *)
  let filteredIps := shuffle (draw w) filteredIps in
  (* 6. write the result *)
  _ ← (if outputDirExists w then mret tt else emit (FsMkdir outputDir));
  let data := join [10%N] filteredIps in
  _ ← emit (FsWriteFile outputFilePath data);
  _ ← orExit (write_ok w);
  (* 8. upload *)
  let ipCount := length filteredIps in
  uploadToGitHub w outputFilePath data repoOutputPath ipCount.

(** ** Vocabulary of the specification *)

(** Decimal digit strings and their value. *)
Definition isDigit (c : N) : bool := ((48 <=? c) && (c <=? 57))%N.

Definition digitString (s : jsstring) : bool :=
  match s with
  | [] => false
  | _ :: _ => forallb isDigit s
  end.

Definition digitsValue (s : jsstring) : Z :=
  fold_left (fun a c => 10 * a + (Z.of_N c - 48)) s 0.

(** A segment of a well-formed address: a digit string of value 0-255. *)
Definition octetString (s : jsstring) : bool :=
  digitString s && (digitsValue s <=? 255).

(** The dotted quad with the given segments. *)
Definition dotted (a b c d : jsstring) : jsstring :=
  a ++ 46%N :: b ++ 46%N :: c ++ 46%N :: d.

(** The range [base/bits]. *)
Definition slashed (base bits : jsstring) : jsstring :=
  base ++ 47%N :: bits.

(** The network mask of a prefix length: the top [p] of 32 bits set. *)
Definition cidrMask (p : Z) : Z := Z.shiftl (Z.ones p) (32 - p).

(** Big-endian packing of segment values into one integer. *)
Definition packed (segments : list jsstring) (z : Z) : Z :=
  fold_left (fun a s => a * 2 ^ 8 + digitsValue s) segments z.

(** The texts the collector gets to read: those of the entries whose name
    ends in [.txt] and whose read succeeds. *)
Definition readableTexts (entries : list entry) : list jsstring :=
  omap (fun f : entry => if endsWith f.1 (lit ".txt") then f.2 else None)
       entries.

(** All the lines of all those texts. *)
Definition allLines (entries : list entry) : list jsstring :=
  readableTexts entries ≫= splitLines.

(** The trimmed lines that are not empty. *)
Definition trimmedLines (entries : list entry) : list jsstring :=
  List.filter (fun l => bool_decide (l ≠ [])) (trim <$> allLines entries).

(** The network requests of a run, in order. *)
Definition isHttp (e : event) : bool :=
  match e with
  | Http _ _ _ => true
  | _ => false
  end.

Definition networkRequests (t : list event) : list event :=
  List.filter isHttp t.


(** The address of the published file in the contents API. *)
Definition apiUrlOf (w : world) (repoPath : jsstring) : jsstring :=
  lit "https://api.github.com/repos/" ++ toString (env_GITHUB_REPOSITORY w)
    ++ lit "/contents/" ++ repoPath.


(** A world in which every external step succeeds, for given environment
    variables and a given answer of the revision lookup. *)
Definition sampleWorld (token repository : value) (answer : lookupAnswer) : world :=
  {| env_GITHUB_TOKEN := token;
     env_GITHUB_REPOSITORY := repository;
     download_ok := true;
     extract_ok := true;
     workDirEntries :=
       [ (lit "a.txt", Some (lit "1.2.3.4" ++ [10%N] ++ lit "8.8.8.8"));
         (lit "b.txt", Some (lit "104.16.0.1")) ];
     draw := fun _ => 0%nat;
     outputDirExists := true;
     write_ok := true;
     currentTime := lit "2025-01-01 08:00:00";
     base64 := fun s => s;
     sha_lookup := answer;
     put_ok := true |}.

(** A line as the collector stores it: not empty, equal to its own trimming
    and free of line feeds. *)
Definition cleanLine (x : jsstring) : Prop :=
  x ≠ [] ∧ trim x = x ∧ 10%N ∉ x.

(** The stages of [main] before the publish step all succeed. *)
Definition stagesOk (w : world) : bool :=
  download_ok w && extract_ok w && write_ok w.

(** Both environment variables are set and not empty. *)
Definition configOk (w : world) : bool :=
  truthy (env_GITHUB_TOKEN w) && truthy (env_GITHUB_REPOSITORY w).

(** The array [filteredIps] of [main] after the shuffle. *)
Definition writtenList (w : world) : list value :=
  shuffle (draw w) (filterIps (VString <$> collect (workDirEntries w))).

(** The files a run writes, in order. *)
Definition isFsWrite (e : event) : bool :=
  match e with
  | FsWriteFile _ _ => true
  | _ => false
  end.

Definition fileWrites (t : list event) : list event :=
  List.filter isFsWrite t.

(** The commit message for a path and a count. *)
Definition commitMessageOf (w : world) (repoPath : jsstring) (n : nat)
  : jsstring :=
  lit "Update " ++ repoPath ++ lit " - " ++ currentTime w
    ++ lit " (Total IPs: " ++ lit (pretty n) ++ lit ")".

(** The block of integers that a range string stands for when its prefix
    length is a number from 1 to 32: first and last integer. *)
Definition blockOf (cidr : jsstring) : option (Z * Z) :=
  match split 47 cidr with
  | [base; bits] =>
      if digitString bits && (1 <=? digitsValue bits)
         && (digitsValue bits <=? 32)
      then
        match ipToLong (VString base) with
        | Ok (Fin b) =>
            let size := 2 ^ (32 - digitsValue bits) in
            Some (b - b mod size, b - b mod size + size - 1)
        | _ => None
        end
      else None
  | _ => None
  end.

(** The blocks of [bannedCidrs], in the order of the list. *)
Definition bannedBlocks : list (Z * Z) :=
  [ (0, 131071); (2372222976, 2372239359); (2889875456, 2890399743);
    (2728263680, 2728394751); (1745879040, 1746403327);
    (1746403328, 1746665471); (2918526976, 2918531071);
    (1729491968, 1729492991); (1729546240, 1729547263);
    (1730085888, 1730086911); (3161612288, 3161616383);
    (3193827328, 3193831423); (3320508416, 3320509439);
    (3324608512, 3324641279); (2197833728, 2197834751) ].

Definition inBlock (n : Z) (block : Z * Z) : bool :=
  (block.1 <=? n) && (n <=? block.2).

(** [x] is [line] stripped of the white space around it: white space only
    was taken off at both ends, and none is left there. *)
Definition stripped (line x : jsstring) : Prop :=
  ∃ l r,
    line = l ++ x ++ r
    ∧ forallb isWhiteSpace l = true ∧ forallb isWhiteSpace r = true
    ∧ (∀ c, head x = Some c → isWhiteSpace c = false)
    ∧ (∀ c, last x = Some c → isWhiteSpace c = false).

(** ** Properties of the 32-bit arithmetic *)

Section Arithmetic.

Lemma roundDouble_small z : Z.abs z < 2 ^ 53 → roundDouble z = Fin z.
Proof.
  intros Hz. unfold roundDouble.
  destruct (Z.ltb_spec (Z.abs z) (2 ^ 53)); [reflexivity | lia].
Qed.

Lemma wrapInt32_range z : - 2 ^ 31 ≤ wrapInt32 z < 2 ^ 31.
Proof.
  unfold wrapInt32.
  pose proof (Z.mod_pos_bound z (2 ^ 32) ltac:(lia)).
  destruct (Z.leb_spec (2 ^ 31) (z mod 2 ^ 32)); lia.
Qed.

Lemma wrapInt32_mod z : wrapInt32 z mod 2 ^ 32 = z mod 2 ^ 32.
Proof.
  unfold wrapInt32.
  destruct (Z.leb_spec (2 ^ 31) (z mod 2 ^ 32)).
  - replace (z mod 2 ^ 32 - 2 ^ 32) with (z mod 2 ^ 32 + (-1) * 2 ^ 32) by lia.
    rewrite Z_mod_plus_full. apply Z.mod_mod. lia.
  - apply Z.mod_mod. lia.
Qed.

Lemma wrapInt32_small z : - 2 ^ 31 ≤ z < 2 ^ 31 → wrapInt32 z = z.
Proof.
  intros Hz.
  pose proof (wrapInt32_range z) as Hr.
  pose proof (wrapInt32_mod z) as Hm.
  assert (Heq : (wrapInt32 z - z) mod 2 ^ 32 = 0).
  { rewrite Zminus_mod, Hm, Z.sub_diag. reflexivity. }
  apply Z.mod_divide in Heq; [| lia].
  destruct Heq as [k Hk]. lia.
Qed.

(** On unsigned 32-bit values ToInt32 is injective. *)
Lemma wrapInt32_inj x y :
  0 ≤ x < 2 ^ 32 → 0 ≤ y < 2 ^ 32 → wrapInt32 x = wrapInt32 y → x = y.
Proof.
  intros Hx Hy Heq.
  rewrite <- (Z.mod_small x (2 ^ 32)), <- (Z.mod_small y (2 ^ 32)) by lia.
  rewrite <- (wrapInt32_mod x), <- (wrapInt32_mod y). congruence.
Qed.

(** The bits of ToInt32 of an unsigned 32-bit value: the low 32 bits are
    kept and bit 31 is the sign. *)
Lemma wrapInt32_testbit x n :
  0 ≤ x < 2 ^ 32 → 0 ≤ n →
  Z.testbit (wrapInt32 x) n = Z.testbit x (Z.min n 31).
Proof.
  intros Hx Hn. unfold wrapInt32. rewrite Z.mod_small by lia.
  destruct (Z.leb_spec (2 ^ 31) x) as [Hge | Hlt].
  - destruct (Z.le_gt_cases n 31) as [Hle | Hgt].
    + rewrite Z.min_l by lia.
      rewrite <- (Z.mod_pow2_bits_low (x - 2 ^ 32) 32 n) by lia.
      replace (x - 2 ^ 32) with (x + (-1) * 2 ^ 32) by lia.
      rewrite Z_mod_plus_full, Z.mod_small by lia. reflexivity.
    + rewrite Z.min_r by lia.
      rewrite Z.bits_above_log2_neg.
      * symmetry. apply Z.testbit_true; [lia |].
        replace (x / 2 ^ 31) with 1; [reflexivity |].
        apply Z.div_unique with (r := x - 2 ^ 31); lia.
      * lia.
      * set (a := Z.pred (- (x - 2 ^ 32))).
        assert (Ha : 0 ≤ a < 2 ^ 31) by (unfold a; lia).
        destruct (Z.eq_dec a 0) as [-> | Hne]; [simpl; lia |].
        apply Z.lt_trans with 31; [| lia].
        apply Z.log2_lt_pow2; lia.
  - assert (Hhi : ∀ m, 31 ≤ m → Z.testbit x m = false).
    { intros m Hm. destruct (Z.eq_dec x 0) as [-> | Hne].
      - apply Z.bits_0.
      - apply Z.bits_above_log2; [lia |].
        apply Z.lt_le_trans with 31; [| lia].
        apply Z.log2_lt_pow2; lia. }
    destruct (Z.le_gt_cases n 31) as [Hle | Hgt].
    + rewrite Z.min_l by lia. reflexivity.
    + rewrite Z.min_r by lia. rewrite !Hhi by lia. reflexivity.
Qed.

(** [&] on two unsigned 32-bit values is the bitwise AND, read as a signed
    32-bit integer. *)
Lemma land_uint32 a m : 0 ≤ a < 2 ^ 32 → 0 ≤ m → 0 ≤ Z.land a m < 2 ^ 32.
Proof.
  intros Ha Hm.
  assert (H0 : 0 ≤ Z.land a m) by (apply Z.land_nonneg; lia).
  split; [exact H0 |].
  destruct (Z.eq_dec (Z.land a m) 0) as [-> | Hne]; [lia |].
  apply Z.log2_lt_pow2; [lia |].
  apply Z.le_lt_trans with (Z.min (Z.log2 a) (Z.log2 m));
    [apply Z.log2_land; lia |].
  destruct (Z.eq_dec a 0) as [-> | Ha0]; [simpl; lia |].
  apply Z.le_lt_trans with (Z.log2 a); [lia |].
  apply Z.log2_lt_pow2; lia.
Qed.

(** [&] on two unsigned 32-bit values is the bitwise AND, read as a signed
    32-bit integer. *)
Lemma land_wrapInt32 x y :
  0 ≤ x < 2 ^ 32 → 0 ≤ y < 2 ^ 32 →
  Z.land (wrapInt32 x) (wrapInt32 y) = wrapInt32 (Z.land x y).
Proof.
  intros Hx Hy.
  pose proof (land_uint32 x y Hx ltac:(lia)) as Hxy.
  apply Z.bits_inj'. intros n Hn.
  rewrite Z.land_spec, !wrapInt32_testbit, Z.land_spec by lia.
  reflexivity.
Qed.

(** The comparison [(ipLong & mask) === (rangeLong & mask)] on unsigned
    32-bit operands decides equality of the masked values. *)
Lemma band_eq x y m :
  0 ≤ x < 2 ^ 32 → 0 ≤ y < 2 ^ 32 → 0 ≤ m < 2 ^ 32 →
  strictEq (band (Fin x) (Fin m)) (band (Fin y) (Fin m))
  = bool_decide (Z.land x m = Z.land y m).
Proof.
  intros Hx Hy Hm. unfold band, strictEq, toInt32.
  rewrite !land_wrapInt32 by lia.
  destruct (Z.eqb_spec (wrapInt32 (Z.land x m)) (wrapInt32 (Z.land y m)))
    as [Heq | Hne].
  - apply wrapInt32_inj in Heq; [| apply land_uint32; lia ..].
    rewrite bool_decide_eq_true_2; done.
  - rewrite bool_decide_eq_false_2; [done |]. intros E. apply Hne.
    by rewrite E.
Qed.

End Arithmetic.

(** ** Properties of the string primitives *)

Section Strings.

Lemma split_nonempty sep s : split sep s ≠ [].
Proof.
  destruct s as [| c t]; simpl; [done |].
  destruct (c =? sep)%N; [done |].
  destruct (split sep t); done.
Qed.

Lemma split_no_sep sep a : sep ∉ a → split sep a = [a].
Proof.
  induction a as [| c a IH]; intros Hnot; simpl; [done |].
  apply not_elem_of_cons in Hnot as [Hne Hnot].
  destruct (N.eqb_spec c sep) as [-> | _]; [done |].
  by rewrite IH.
Qed.

Lemma split_app sep a b :
  sep ∉ a → split sep (a ++ sep :: b) = a :: split sep b.
Proof.
  induction a as [| c a IH]; intros Hnot; simpl.
  - by rewrite N.eqb_refl.
  - apply not_elem_of_cons in Hnot as [Hne Hnot].
    destruct (N.eqb_spec c sep) as [-> | _]; [done |].
    by rewrite IH.
Qed.

Lemma isDigit_cases c :
  isDigit c = true →
  isWhiteSpace c = false ∧ (c =? 45)%N = false ∧ (c =? 43)%N = false
  ∧ c ≠ 46%N ∧ c ≠ 47%N ∧ digitVal c = Some (Z.of_N c - 48)
  ∧ 0 ≤ Z.of_N c - 48 ≤ 9.
Proof.
  unfold isDigit, digitVal. intros H. rewrite H.
  apply andb_true_iff in H as [Hlo Hhi].
  apply N.leb_le in Hlo, Hhi.
  assert (Hc : (c = 48 ∨ c = 49 ∨ c = 50 ∨ c = 51 ∨ c = 52 ∨ c = 53
                ∨ c = 54 ∨ c = 55 ∨ c = 56 ∨ c = 57)%N) by lia.
  repeat destruct Hc as [-> | Hc]; try subst c;
    repeat split; first [reflexivity | discriminate | lia].
Qed.

Lemma digitString_no_sep s sep :
  digitString s = true → sep = 46%N ∨ sep = 47%N → sep ∉ s.
Proof.
  intros Hs Hsep Hin.
  assert (Hall : forallb isDigit s = true) by (destruct s; done).
  rewrite forallb_forall in Hall.
  apply list_elem_of_In, Hall, isDigit_cases in Hin.
  destruct Hin as (_ & _ & _ & H46 & H47 & _).
  destruct Hsep; congruence.
Qed.

Lemma takeDigits_digits s :
  forallb isDigit s = true → takeDigits s = map (fun c => Z.of_N c - 48) s.
Proof.
  induction s as [| c s IH]; simpl; [done |].
  intros [Hc Hs]%andb_true_iff.
  apply isDigit_cases in Hc as (_ & _ & _ & _ & _ & -> & _).
  by rewrite IH.
Qed.

Lemma fold_decimal_map s acc :
  fold_left (fun a d => 10 * a + d) (map (fun c => Z.of_N c - 48) s) acc
  = fold_left (fun a c => 10 * a + (Z.of_N c - 48)) s acc.
Proof. revert acc. induction s as [| c s IH]; intros acc; simpl; auto. Qed.

Lemma fold_digits_nonneg s acc :
  forallb isDigit s = true → 0 ≤ acc →
  0 ≤ fold_left (fun a c => 10 * a + (Z.of_N c - 48)) s acc.
Proof.
  revert acc. induction s as [| c s IH]; intros acc; simpl; [done |].
  intros [Hc Hs]%andb_true_iff Hacc.
  apply isDigit_cases in Hc as (_ & _ & _ & _ & _ & _ & Hd).
  apply IH; [done | lia].
Qed.

Lemma digitsValue_nonneg s : digitString s = true → 0 ≤ digitsValue s.
Proof.
  intros Hs. apply fold_digits_nonneg; [by destruct s | lia].
Qed.

(** [parseInt] reads a digit string as its decimal value, as long as that
    value is a safe integer. *)
Lemma parseInt_digits s :
  digitString s = true → digitsValue s < 2 ^ 53 →
  parseInt (VString s) = Fin (digitsValue s).
Proof.
  intros Hs Hv. pose proof (digitsValue_nonneg s Hs) as H0.
  destruct s as [| c t]; [done |].
  unfold digitString in Hs.
  pose proof Hs as [Hc Ht]%andb_true_iff.
  pose proof (isDigit_cases c Hc) as (Hws & Hm & Hp & _ & _ & Hd & _).
  unfold parseInt. cbn [toString trimStart]. rewrite Hws, Hm, Hp.
  rewrite (takeDigits_digits (c :: t) Hs).
  cbn [map]. unfold decimal.
  change (fold_left _ (Z.of_N c - 48 :: map _ t) 0)
    with (fold_left (fun a d => 10 * a + d)
            (map (fun c => Z.of_N c - 48) (c :: t)) 0).
  rewrite fold_decimal_map. fold (digitsValue (c :: t)).
  rewrite Z.mul_1_l. apply roundDouble_small. lia.
Qed.

End Strings.

(** ** Properties of [ipToLong] and [isIpInCidr] *)

Section Helpers.

Lemma ipToLong_unfold s :
  ipToLong (VString s)
  = Ok (Fin (toUint32 (fold_left pack (split 46 s) (Fin 0)))).
Proof.
  unfold ipToLong, ushr. cbn. rewrite Z.shiftr_0_r. reflexivity.
Qed.

(** [ipToLong] never throws on a string, and its result is an unsigned
    32-bit integer. *)
Lemma ipToLong_total s :
  ∃ n, ipToLong (VString s) = Ok (Fin n) ∧ 0 ≤ n < 2 ^ 32.
Proof.
  rewrite ipToLong_unfold. eexists. split; [reflexivity |].
  destruct (fold_left pack (split 46 s) (Fin 0)); simpl; try lia.
  apply Z.mod_pos_bound. lia.
Qed.

(** One step of the reducer on a finite accumulator and a digit string. *)
Lemma pack_digits z s :
  digitString s = true → digitsValue s < 2 ^ 52 →
  pack (Fin z) s = Fin (wrapInt32 (wrapInt32 z * 2 ^ 8) + digitsValue s).
Proof.
  intros Hs Hv. unfold pack. rewrite parseInt_digits by (done || lia).
  unfold shl. cbn [toInt32 toUint32 add].
  change (8 mod 2 ^ 32 mod 32) with 8. rewrite Z.shiftl_mul_pow2 by lia.
  pose proof (digitsValue_nonneg s Hs).
  pose proof (wrapInt32_range (wrapInt32 z * 2 ^ 8)).
  apply roundDouble_small. lia.
Qed.

Lemma pack_mod z s :
  digitString s = true → digitsValue s < 2 ^ 52 →
  toUint32 (pack (Fin z) s) = (z * 2 ^ 8 + digitsValue s) mod 2 ^ 32.
Proof.
  intros Hs Hv. rewrite pack_digits by done. cbn [toUint32].
  rewrite Z.add_mod, wrapInt32_mod, Z.mul_mod, wrapInt32_mod by lia.
  rewrite <- Z.mul_mod, <- Z.add_mod by lia. reflexivity.
Qed.

End Helpers.

Section Packing.

Lemma packed_mod segs a b :
  a mod 2 ^ 32 = b mod 2 ^ 32 →
  packed segs a mod 2 ^ 32 = packed segs b mod 2 ^ 32.
Proof.
  revert a b. induction segs as [| s segs IH]; intros a b Hab; [done |].
  apply IH.
  rewrite (Z.add_mod (a * _)), (Z.add_mod (b * _)) by lia.
  rewrite (Z.mul_mod a), (Z.mul_mod b), Hab by lia. reflexivity.
Qed.

(** Folding the reducer over digit-string segments keeps the accumulator
    finite and congruent to the big-endian packing of the values. *)
Lemma fold_pack_digits segs z :
  Forall (fun s => digitString s = true ∧ digitsValue s < 2 ^ 52) segs →
  ∃ y, fold_left pack segs (Fin z) = Fin y
       ∧ y mod 2 ^ 32 = packed segs z mod 2 ^ 32.
Proof.
  intros Hall. revert z.
  induction Hall as [| s segs [Hs Hv] _ IH]; intros z.
  - exists z. done.
  - cbn [fold_left]. rewrite pack_digits by done.
    destruct (IH (wrapInt32 (wrapInt32 z * 2 ^ 8) + digitsValue s))
      as (y & Hy & Hmod).
    exists y. split; [exact Hy |]. rewrite Hmod.
    change (packed (s :: segs) z)
      with (packed segs (z * 2 ^ 8 + digitsValue s)).
    apply packed_mod.
    change ((wrapInt32 (wrapInt32 z * 2 ^ 8) + digitsValue s) mod 2 ^ 32)
      with (toUint32 (Fin (wrapInt32 (wrapInt32 z * 2 ^ 8) + digitsValue s))).
    rewrite <- pack_digits by done. by apply pack_mod.
Qed.

(** [ipToLong] on four digit-string segments. *)
Lemma ipToLong_dotted a b c d :
  Forall (fun s => digitString s = true ∧ digitsValue s < 2 ^ 52) [a; b; c; d] →
  ipToLong (VString (dotted a b c d))
  = Ok (Fin ((digitsValue a * 2 ^ 24 + digitsValue b * 2 ^ 16
              + digitsValue c * 2 ^ 8 + digitsValue d) mod 2 ^ 32)).
Proof.
  intros Hall. rewrite ipToLong_unfold. unfold dotted.
  pose proof Hall as Hall'.
  rewrite !Forall_cons in Hall'.
  destruct Hall' as ((Ha & _) & (Hb & _) & (Hc & _) & (Hd & _) & _).
  rewrite !split_app, split_no_sep by (apply digitString_no_sep; auto).
  destruct (fold_pack_digits [a; b; c; d] 0 Hall) as (y & -> & Hy).
  cbn [toUint32]. rewrite Hy. do 2 f_equal. f_equal.
  unfold packed. cbn [fold_left]. lia.
Qed.

End Packing.

Section Masks.

(** For the prefix lengths 1 to 32 the mask expression of [isIpInCidr]
    yields the network mask. *)
Lemma maskOf_prefix bits p :
  parseInt bits = Fin p → 1 ≤ p ≤ 32 → maskOf bits = Fin (cidrMask p).
Proof.
  intros Hparse Hp. unfold maskOf. rewrite Hparse. clear Hparse.
  assert (Hin : p ∈ seqZ 1 32) by (apply elem_of_seqZ; lia).
  clear Hp. revert p Hin. apply (proj1 (Forall_forall _ _)).
  replace (seqZ 1 32) with (Z.of_nat <$> seq 1 32) by (by vm_compute).
  cbn [seq fmap list_fmap].
  repeat (apply Forall_cons; split; [by vm_compute |]). constructor.
Qed.

Lemma cidrMask_range p : 0 ≤ p ≤ 32 → 0 ≤ cidrMask p < 2 ^ 32.
Proof.
  intros Hp. unfold cidrMask.
  rewrite Z.shiftl_mul_pow2, Z.ones_equiv by lia.
  assert (2 ^ p * 2 ^ (32 - p) = 2 ^ 32)
    by (rewrite <- Z.pow_add_r by lia; f_equal; lia).
  assert (0 < 2 ^ p) by (apply Z.pow_pos_nonneg; lia).
  assert (0 < 2 ^ (32 - p)) by (apply Z.pow_pos_nonneg; lia).
  nia.
Qed.

(** The mask has exactly its top [p] bits set. *)
Lemma cidrMask_bits p i :
  0 ≤ p ≤ 32 → 0 ≤ i < 32 →
  Z.testbit (cidrMask p) i = bool_decide (32 - p ≤ i).
Proof.
  intros Hp Hi. unfold cidrMask. rewrite Z.shiftl_spec by lia.
  case_bool_decide.
  - apply Z.ones_spec_low. lia.
  - apply Z.testbit_neg_r. lia.
Qed.

(** [isIpInCidr] on a range written [base/bits] with a prefix length from 1
    to 32: the comparison of the two masked integers. *)
Lemma isIpInCidr_masked ip base bits :
  47%N ∉ base → digitString bits = true → 1 ≤ digitsValue bits ≤ 32 →
  ∃ a b,
    ipToLong (VString ip) = Ok (Fin a) ∧ ipToLong (VString base) = Ok (Fin b)
    ∧ isIpInCidr (VString ip) (VString (slashed base bits))
      = Ok (bool_decide (Z.land a (cidrMask (digitsValue bits))
                         = Z.land b (cidrMask (digitsValue bits)))).
Proof.
  intros Hbase Hbits Hp.
  destruct (ipToLong_total ip) as (a & Ha & Hra).
  destruct (ipToLong_total base) as (b & Hb & Hrb).
  exists a, b. split; [done |]. split; [done |].
  unfold isIpInCidr, slashed. rewrite Ha. cbn [split_method mbind result_bind].
  rewrite split_app, split_no_sep
    by (done || apply digitString_no_sep; auto).
  change (element [base; bits] 0) with (VString base).
  change (element [base; bits] 1) with (VString bits).
  rewrite Hb.
  rewrite (maskOf_prefix (VString bits) (digitsValue bits));
    [| apply parseInt_digits; [done | lia] | done].
  cbn [mbind result_bind]. f_equal. apply band_eq; try done.
  apply cidrMask_range. lia.
Qed.

(** For the prefix length 0 the shift count [32] wraps to 0, the mask is all
    ones, and [isIpInCidr] compares the two integers in full. *)
Lemma isIpInCidr_zero_prefix ip base :
  47%N ∉ base →
  ∃ a b,
    ipToLong (VString ip) = Ok (Fin a) ∧ ipToLong (VString base) = Ok (Fin b)
    ∧ isIpInCidr (VString ip) (VString (slashed base (lit "0")))
      = Ok (bool_decide (a = b)).
Proof.
  intros Hbase.
  destruct (ipToLong_total ip) as (a & Ha & Hra).
  destruct (ipToLong_total base) as (b & Hb & Hrb).
  exists a, b. split; [done |]. split; [done |].
  unfold isIpInCidr, slashed. rewrite Ha. cbn [split_method mbind result_bind].
  rewrite split_app, split_no_sep
    by (done || apply (digitString_no_sep (lit "0")); auto).
  change (element [base; lit "0"] 0) with (VString base).
  change (element [base; lit "0"] 1) with (VString (lit "0")).
  rewrite Hb. change (maskOf (VString (lit "0"))) with (Fin (Z.ones 32)).
  cbn [mbind result_bind]. f_equal.
  rewrite band_eq by (done || by vm_compute).
  rewrite !Z.land_ones, !Z.mod_small by lia. reflexivity.
Qed.

End Masks.

(** ** Properties of the filter callback, for any membership test *)

Section FilterFacts.

Variable test : value → value → result bool.

(** Ranges on which the test returns false are passed over. *)
Lemma check_app_false ip pre rest :
  (∀ c, c ∈ pre → test ip (VString c) = Ok false) →
  check test ip (pre ++ rest)
  = (pre ++ (check test ip rest).1, (check test ip rest).2).
Proof.
  induction pre as [| c pre IH]; intros Hpre.
  - simpl. by destruct (check test ip rest).
  - cbn [app check]. rewrite (Hpre c) by left.
    rewrite IH by (intros; apply Hpre; by right). reflexivity.
Qed.

(** An address is kept exactly when the test returns false on every range. *)
Lemma keeps_true_iff cidrs ip :
  keeps test cidrs ip = true
  ↔ ∀ c, c ∈ cidrs → test ip (VString c) = Ok false.
Proof.
  unfold keeps. induction cidrs as [| c cidrs IH]; cbn [check].
  - split; [intros _ c Hc; by apply elem_of_nil in Hc | done].
  - destruct (test ip (VString c)) as [[|] | e] eqn:Ht; cbn.
    + split; [done |]. intros H. specialize (H c ltac:(left)). congruence.
    + destruct (check test ip cidrs) as [tested v] eqn:Hc. cbn in *.
      rewrite IH. split.
      * intros H c' [-> | Hin]%elem_of_cons; auto.
      * intros H c' Hin. apply H. by right.
    + split; [done |]. intros H. specialize (H c ltac:(left)). congruence.
Qed.

(** The tested ranges are an initial segment of the list. *)
Lemma check_tested_prefix ip cidrs :
  (check test ip cidrs).1 `prefix_of` cidrs.
Proof.
  induction cidrs as [| c cidrs IH]; cbn [check]; [done |].
  destruct (test ip (VString c)) as [[|] | e].
  - cbn. by apply prefix_cons, prefix_nil.
  - destruct (check test ip cidrs) as [tested v]. cbn in *.
    by apply prefix_cons.
  - cbn. by apply prefix_cons, prefix_nil.
Qed.

Lemma filterWith_elem cidrs ips ip :
  ip ∈ filterWith test cidrs ips ↔ ip ∈ ips ∧ keeps test cidrs ip = true.
Proof. unfold filterWith. rewrite !list_elem_of_In. apply filter_In. Qed.

Lemma filterWith_app cidrs l1 l2 :
  filterWith test cidrs (l1 ++ l2)
  = filterWith test cidrs l1 ++ filterWith test cidrs l2.
Proof. apply List.filter_app. Qed.

Lemma filterWith_idem cidrs ips :
  filterWith test cidrs (filterWith test cidrs ips) = filterWith test cidrs ips.
Proof.
  unfold filterWith. induction ips as [| ip ips IH]; [done |].
  cbn [List.filter]. destruct (keeps test cidrs ip) eqn:Hk; [| exact IH].
  cbn [List.filter]. rewrite Hk. by f_equal.
Qed.

End FilterFacts.

(** ** The helpers never throw on strings *)

Section Totality.




End Totality.

(** ** Properties of the collector *)

Section Collector.

Lemma set_add_elem x y (s : list jsstring) :
  x ∈ set_add y s ↔ x ∈ s ∨ x = y.
Proof.
  unfold set_add. case_bool_decide as Hy.
  - split; [auto |]. intros [? | ->]; done.
  - rewrite elem_of_app, list_elem_of_singleton. done.
Qed.

Lemma set_add_NoDup y (s : list jsstring) : NoDup s → NoDup (set_add y s).
Proof.
  intros Hs. unfold set_add. case_bool_decide as Hy; [done |].
  apply NoDup_app. split; [done |]. split.
  - intros x Hx ->%list_elem_of_singleton. done.
  - apply NoDup_singleton.
Qed.

Lemma addLine_elem x line (s : list jsstring) :
  x ∈ addLine s line ↔ x ∈ s ∨ (x ≠ [] ∧ trim line = x).
Proof.
  unfold addLine. destruct (trim line) as [| c t] eqn:Ht; cbn [truthy].
  - split; [auto |]. intros [? | [Hne <-]]; done.
  - rewrite set_add_elem. split; intros [? | H]; auto.
    + right. by subst x.
    + right. by destruct H.
Qed.

Lemma addLine_NoDup line (s : list jsstring) : NoDup s → NoDup (addLine s line).
Proof.
  intros Hs. unfold addLine. destruct (truthy _); [| done].
  by apply set_add_NoDup.
Qed.

Lemma fold_addLine_elem x lines (s : list jsstring) :
  x ∈ fold_left addLine lines s
  ↔ x ∈ s ∨ (x ≠ [] ∧ ∃ line, line ∈ lines ∧ trim line = x).
Proof.
  revert s. induction lines as [| l lines IH]; intros s; cbn [fold_left].
  - split; [auto |]. intros [? | (_ & line & Hin & _)]; [done |].
    by apply elem_of_nil in Hin.
  - rewrite IH, addLine_elem. split.
    + intros [[? | [Hne Ht]] | (Hne & line & Hin & Ht)]; auto.
      * right. split; [done |]. exists l. split; [left | done].
      * right. split; [done |]. exists line. split; [by right | done].
    + intros [? | (Hne & line & [-> | Hin]%elem_of_cons & Ht)]; auto.
      right. split; [done |]. by exists line.
Qed.

Lemma fold_addLine_NoDup lines (s : list jsstring) :
  NoDup s → NoDup (fold_left addLine lines s).
Proof.
  revert s. induction lines as [| l lines IH]; intros s Hs; [done |].
  cbn [fold_left]. by apply IH, addLine_NoDup.
Qed.

(** Reading file after file comes to reading all lines in one go. *)
Lemma fold_addFile entries (s : list jsstring) :
  fold_left addFile entries s = fold_left addLine (allLines entries) s.
Proof.
  revert s. induction entries as [| [name read] entries IH]; intros s; [done |].
  cbn [fold_left]. rewrite IH. unfold allLines, readableTexts, addFile.
  cbn [omap list_omap fst snd].
  destruct (endsWith name (lit ".txt")); [| done].
  destruct read as [text |]; [| done].
  cbn [mbind list_bind]. by rewrite fold_left_app.
Qed.

Lemma collect_elem entries x :
  x ∈ collect entries
  ↔ x ≠ [] ∧ ∃ line, line ∈ allLines entries ∧ trim line = x.
Proof.
  unfold collect. rewrite fold_addFile, fold_addLine_elem.
  split; [intros [Hin | ?]; [by apply elem_of_nil in Hin | done] | auto].
Qed.

Lemma collect_NoDup entries : NoDup (collect entries).
Proof.
  unfold collect. rewrite fold_addFile.
  apply fold_addLine_NoDup, NoDup_nil_2.
Qed.

Lemma trimmedLines_elem entries x :
  x ∈ trimmedLines entries
  ↔ x ≠ [] ∧ ∃ line, line ∈ allLines entries ∧ trim line = x.
Proof.
  unfold trimmedLines. rewrite list_elem_of_In, filter_In, <- list_elem_of_In.
  rewrite list_elem_of_fmap, bool_decide_eq_true. split.
  - intros [(line & -> & Hin) Hne]. eauto.
  - intros [Hne (line & Hin & <-)]. eauto.
Qed.

Lemma collect_distinct entries :
  collect entries ≡ₚ remove_dups (trimmedLines entries).
Proof.
  apply NoDup_Permutation.
  - apply collect_NoDup.
  - apply NoDup_remove_dups.
  - intros x. by rewrite elem_of_remove_dups, collect_elem, trimmedLines_elem.
Qed.

(** White space only: the line trims to the empty string. *)
Lemma trimStart_blank line :
  forallb isWhiteSpace line = true → trimStart line = [].
Proof.
  induction line as [| c line IH]; [done |]. cbn.
  intros [-> Hl]%andb_true_iff. auto.
Qed.

Lemma trim_blank line : forallb isWhiteSpace line = true → trim line = [].
Proof. intros H. unfold trim. by rewrite trimStart_blank. Qed.

End Collector.

(** ** Properties of [trim], of line splitting and of [join] *)

#[export] Instance VString_inj : Inj (=) (=) VString.
Proof. intros s1 s2 H. by injection H. Qed.

Section Lines.

Lemma trimStart_head s c t : trimStart s = c :: t → isWhiteSpace c = false.
Proof.
  induction s as [| c' s IH]; cbn [trimStart]; [done |].
  destruct (isWhiteSpace c') eqn:Hc; [exact IH |].
  intros H. injection H as <- <-. exact Hc.
Qed.

Lemma trimStart_fix c t : isWhiteSpace c = false → trimStart (c :: t) = c :: t.
Proof. intros H. cbn. by rewrite H. Qed.

Lemma trimStart_idem s : trimStart (trimStart s) = trimStart s.
Proof.
  destruct (trimStart s) as [| c t] eqn:H; [done |].
  apply trimStart_fix. by apply (trimStart_head s c t).
Qed.

(** [trimStart] removes a prefix of white space. *)
Lemma trimStart_spec s :
  ∃ ws, s = ws ++ trimStart s ∧ forallb isWhiteSpace ws = true.
Proof.
  induction s as [| c s (ws & Hs & Hws)]; [by exists [] |].
  cbn [trimStart]. destruct (isWhiteSpace c) eqn:Hc.
  - exists (c :: ws). cbn. rewrite Hc, Hws. split; [by f_equal | done].
  - by exists [].
Qed.

Lemma trimEnd_spec s :
  ∃ ws, s = trimEnd s ++ ws ∧ forallb isWhiteSpace ws = true.
Proof.
  destruct (trimStart_spec (rev s)) as (ws & Hs & Hws).
  exists (rev ws). split.
  - unfold trimEnd. rewrite <- rev_app_distr, <- Hs. by rewrite rev_involutive.
  - rewrite forallb_forall in *. intros c Hc. apply Hws. by apply in_rev.
Qed.

Lemma trimEnd_idem s : trimEnd (trimEnd s) = trimEnd s.
Proof. unfold trimEnd. by rewrite rev_involutive, trimStart_idem. Qed.

(** Trimming twice is trimming once. *)
Lemma trim_idem s : trim (trim s) = trim s.
Proof.
  unfold trim. set (u := trimStart s).
  assert (Hstart : trimStart (trimEnd u) = trimEnd u).
  { destruct (trimEnd_spec u) as (ws & Hu & _).
    destruct (trimEnd u) as [| c v] eqn:Hv; [done |].
    apply trimStart_fix. apply (trimStart_head s c (v ++ ws)).
    fold u. by rewrite Hu. }
  by rewrite Hstart, trimEnd_idem.
Qed.

Lemma trimStart_elem c s : c ∈ trimStart s → c ∈ s.
Proof.
  destruct (trimStart_spec s) as (ws & Hs & _). intros Hc.
  rewrite Hs. apply elem_of_app. by right.
Qed.

Lemma elem_of_rev (c : N) s : c ∈ rev s ↔ c ∈ s.
Proof. rewrite !list_elem_of_In. symmetry. apply in_rev. Qed.

Lemma trim_elem c s : c ∈ trim s → c ∈ s.
Proof.
  unfold trim, trimEnd. rewrite elem_of_rev. intros Hc.
  apply trimStart_elem in Hc. rewrite elem_of_rev in Hc.
  by apply trimStart_elem.
Qed.

(** A trimmed string neither starts nor ends with white space. *)
Lemma trim_ends s :
  trim s = s →
  (∀ c, head s = Some c → isWhiteSpace c = false)
  ∧ (∀ c, last s = Some c → isWhiteSpace c = false).
Proof.
  intros Hfix. split; intros c Hc.
  - assert (Hstart : trimStart s = s).
    { rewrite <- Hfix. unfold trim.
      destruct (trimEnd_spec (trimStart s)) as (ws & Hu & _).
      destruct (trimEnd (trimStart s)) as [| c' v] eqn:Hv; [done |].
      apply trimStart_fix. apply (trimStart_head s c' (v ++ ws)). by rewrite Hu. }
    destruct s as [| c' t]; [done |]. injection Hc as ->.
    by apply (trimStart_head (c :: t) c t).
  - assert (Hrev : trimStart (rev s) = rev s).
    { rewrite <- Hfix at 2. unfold trim, trimEnd. rewrite rev_involutive.
      rewrite <- Hfix at 1. unfold trim, trimEnd.
      by rewrite rev_involutive, trimStart_idem. }
    destruct s as [| c' t _] using rev_ind; [done |].
    rewrite last_snoc in Hc. injection Hc as ->.
    rewrite rev_unit in Hrev. by apply (trimStart_head _ c (rev t)) in Hrev.
Qed.

(** No piece of a text split into lines contains a line feed. *)
Lemma splitLines_no_lf s piece : piece ∈ splitLines s → 10%N ∉ piece.
Proof.
  revert piece. induction s as [| c t IH]; intros piece; cbn [splitLines].
  - intros ->%list_elem_of_singleton. apply not_elem_of_nil.
  - destruct (N.eqb_spec c 10) as [-> | Hc].
    + intros [-> | Hin]%elem_of_cons; [apply not_elem_of_nil | by apply IH].
    + destruct t as [| c' t'].
      * intros ->%list_elem_of_singleton.
        by intros [? | ?%elem_of_nil]%elem_of_cons.
      * destruct ((c =? 13)%N && (c' =? 10)%N);
          destruct (splitLines (c' :: t')) as [| h r] eqn:Hs.
        -- intros ->%list_elem_of_singleton. apply not_elem_of_nil.
        -- intros [-> | Hin]%elem_of_cons; [apply not_elem_of_nil |].
           apply IH. by right.
        -- intros ->%list_elem_of_singleton.
           by intros [? | ?%elem_of_nil]%elem_of_cons.
        -- intros [-> | Hin]%elem_of_cons.
           ++ intros [? | Hh]%elem_of_cons; [done |].
              revert Hh. apply IH. by left.
           ++ apply IH. by right.
Qed.

Lemma splitLines_single a : 10%N ∉ a → splitLines a = [a].
Proof.
  induction a as [| c a IH]; intros Hno; [done |].
  apply not_elem_of_cons in Hno as [Hc Ha].
  cbn [splitLines]. destruct (N.eqb_spec c 10) as [-> | _]; [done |].
  destruct a as [| c' a']; [done |].
  apply not_elem_of_cons in Ha as Ha'. destruct Ha' as [Hc' _].
  destruct (N.eqb_spec c' 10) as [-> | _]; [done |].
  rewrite andb_false_r. by rewrite IH.
Qed.

Lemma splitLines_app_lf a b :
  10%N ∉ a → last a ≠ Some 13%N →
  splitLines (a ++ 10%N :: b) = a :: splitLines b.
Proof.
  induction a as [| c a IH]; intros Hno Hlast; [done |].
  apply not_elem_of_cons in Hno as [Hc Ha].
  cbn [app splitLines]. destruct (N.eqb_spec c 10) as [-> | _]; [done |].
  destruct a as [| c' a'].
  - cbn [app]. rewrite N.eqb_refl, andb_true_r.
    destruct (N.eqb_spec c 13) as [-> | _]; [done |].
    cbn [splitLines]. by rewrite N.eqb_refl.
  - apply not_elem_of_cons in Ha as Ha'. destruct Ha' as [Hc' _].
    change ((c' :: a') ++ 10%N :: b) with (c' :: a' ++ 10%N :: b) at 1.
    cbv beta iota.
    destruct (N.eqb_spec c' 10) as [-> | _]; [done |].
    rewrite andb_false_r. rewrite IH; [done | done |].
    by rewrite last_cons_cons in Hlast.
Qed.

(** Joining with line feeds and splitting again gives the lines back. *)
Lemma splitLines_join l :
  l ≠ [] → Forall (fun x => (10%N ∉ x) ∧ (last x ≠ Some 13%N)) l →
  splitLines (join [10%N] (VString <$> l)) = l.
Proof.
  intros Hne Hall. induction Hall as [| x l [Hx Hlast] Hall IH]; [done |].
  destruct l as [| y l].
  - cbn. by apply splitLines_single.
  - change (join [10%N] (VString <$> (x :: y :: l)))
      with (x ++ 10%N :: join [10%N] (VString <$> (y :: l))).
    rewrite splitLines_app_lf by done. f_equal. by apply IH.
Qed.

(** White space in front is skipped. *)
Lemma trimStart_app_blank ws s :
  forallb isWhiteSpace ws = true → trimStart (ws ++ s) = trimStart s.
Proof.
  induction ws as [| c ws IH]; [done |]. cbn.
  intros [-> Hws]%andb_true_iff. auto.
Qed.

Lemma forallb_rev_blank ws :
  forallb isWhiteSpace ws = true → forallb isWhiteSpace (rev ws) = true.
Proof.
  rewrite !forallb_forall. intros H c Hc. apply H. by apply in_rev.
Qed.

(** What [trim] returns is the line stripped of the white space around it. *)
Lemma trim_stripped line : stripped line (trim line).
Proof.
  destruct (trimStart_spec line) as (l & Hl & Hwl).
  destruct (trimEnd_spec (trimStart line)) as (r & Hr & Hwr).
  exists l, r. fold (trim line) in Hr.
  split; [by rewrite <- Hr |]. split; [done |]. split; [done |].
  apply trim_ends, trim_idem.
Qed.

(** And nothing else is. *)
Lemma stripped_trim line x : stripped line x → trim line = x.
Proof.
  intros (l & r & -> & Hwl & Hwr & Hhead & Hlast).
  unfold trim. rewrite trimStart_app_blank by done.
  destruct x as [| c t].
  - cbn [app]. rewrite trimStart_blank by done. reflexivity.
  - assert (Hstart : trimStart ((c :: t) ++ r) = (c :: t) ++ r)
      by (apply trimStart_fix, Hhead; reflexivity).
    rewrite Hstart. unfold trimEnd.
    rewrite rev_app_distr, trimStart_app_blank by (by apply forallb_rev_blank).
    destruct (rev (c :: t)) as [| c' t'] eqn:Hrev.
    { apply (f_equal (@length N)) in Hrev.
      rewrite length_rev in Hrev. discriminate. }
    rewrite trimStart_fix.
    + by rewrite <- Hrev, rev_involutive.
    + apply Hlast. rewrite <- (rev_involutive (c :: t)), Hrev.
      cbn [rev]. apply last_snoc.
Qed.

(** [endsWith] tests for a suffix. *)
Lemma endsWith_spec s suffix :
  endsWith s suffix = true ↔ ∃ stem, s = stem ++ suffix.
Proof.
  unfold endsWith. rewrite bool_decide_eq_true. split.
  - intros Hrev. exists (rev (drop (length suffix) (rev s))).
    assert (Hs : rev s = rev suffix ++ drop (length suffix) (rev s))
      by (by rewrite Hrev, take_drop).
    apply (f_equal (@rev N)) in Hs.
    by rewrite rev_involutive, rev_app_distr, rev_involutive in Hs.
  - intros [stem ->]. rewrite rev_app_distr.
    by rewrite take_app_length' by (by rewrite length_rev).
Qed.

(** The lines the collector reads are those of the texts of the entries
    whose name ends in [.txt] and whose read succeeds. *)
Lemma allLines_elem entries line :
  line ∈ allLines entries
  ↔ ∃ name text,
      (name, Some text) ∈ entries
      ∧ (∃ stem, name = stem ++ lit ".txt")
      ∧ line ∈ splitLines text.
Proof.
  unfold allLines, readableTexts.
  rewrite list_elem_of_bind. split.
  - intros (text & Hline & Htext).
    apply list_elem_of_omap in Htext as ([name read] & Hin & Hread).
    cbn [fst snd] in Hread.
    destruct (endsWith name (lit ".txt")) eqn:Hname; [| discriminate].
    subst read. exists name, text. split; [done |].
    split; [by apply endsWith_spec | done].
  - intros (name & text & Hin & Hstem & Hline).
    exists text. split; [done |].
    apply list_elem_of_omap. exists (name, Some text). split; [done |].
    cbn [fst snd]. apply endsWith_spec in Hstem. by rewrite Hstem.
Qed.

(** A carriage return directly before the line feed belongs to the line
    end. *)
Lemma splitLines_app_crlf a b :
  10%N ∉ a → splitLines (a ++ 13%N :: 10%N :: b) = a :: splitLines b.
Proof.
  induction a as [| c a IH]; intros Hno.
  - cbn [app splitLines]. cbn. reflexivity.
  - apply not_elem_of_cons in Hno as [Hc Ha].
    specialize (IH Ha).
    cbn [app]. cbn [splitLines].
    destruct (N.eqb_spec c 10) as [-> | _]; [done |].
    destruct (a ++ 13%N :: 10%N :: b) as [| c' t'] eqn:Ht;
      [by destruct a |].
    assert (Hc' : c' ≠ 10%N).
    { destruct a as [| c2 a2]; cbn in Ht; injection Ht as <- _; [done |].
      apply not_elem_of_cons in Ha as [? _]. done. }
    destruct (N.eqb_spec c' 10) as [-> | _]; [done |].
    rewrite andb_false_r, IH. reflexivity.
Qed.

End Lines.

(** ** Properties of the shuffle *)

Section Shuffle.

Context {A : Type}.

Lemma swap_length i j (a : list A) : length (swap i j a) = length a.
Proof.
  unfold swap. destruct (a !! i), (a !! j); by rewrite ?length_insert.
Qed.

Lemma swap_Permutation i j (a : list A) : swap i j a ≡ₚ a.
Proof.
  unfold swap.
  destruct (a !! i) as [x |] eqn:Hi; [| done].
  destruct (a !! j) as [y |] eqn:Hj; [| done].
  apply Permutation_inj. split; [by rewrite !length_insert |].
  pose proof (lookup_lt_Some _ _ _ Hi) as Hli.
  pose proof (lookup_lt_Some _ _ _ Hj) as Hlj.
  exists (fun k => if decide (k = i) then j else if decide (k = j) then i else k).
  split.
  - intros k1 k2. repeat case_decide; lia.
  - intros k. rewrite !list_lookup_insert, !length_insert.
    repeat case_decide; try (destruct_and?; simplify_eq); try done; try lia.
    all: try congruence.
Qed.

Lemma shuffleFrom_Permutation draw i (a : list A) : shuffleFrom draw i a ≡ₚ a.
Proof.
  revert a. induction i as [| i IH]; intros a; [done |].
  cbn [shuffleFrom]. rewrite IH. apply swap_Permutation.
Qed.

End Shuffle.

(** ** Properties of the process *)

Section Process.

Lemma upload_missing_config w path text repoPath n :
  truthy (env_GITHUB_TOKEN w) = false ∨ truthy (env_GITHUB_REPOSITORY w) = false →
  uploadToGitHub w path text repoPath n = ([], Exited 1).
Proof.
  intros H. unfold uploadToGitHub.
  assert (Hc : negb (truthy (env_GITHUB_TOKEN w))
               || negb (truthy (env_GITHUB_REPOSITORY w)) = true)
    by (destruct H as [-> | ->]; [done | apply orb_true_r]).
  rewrite Hc. reflexivity.
Qed.

Lemma networkRequests_reads names :
  networkRequests (FsReadFile <$> names) = [].
Proof. induction names; done. Qed.

Lemma main_missing_config w :
  truthy (env_GITHUB_TOKEN w) = false ∨ truthy (env_GITHUB_REPOSITORY w) = false →
  exitCode (main w) = 1
  ∧ networkRequests (trace (main w)) = [Http GET downloadUrl None].
Proof.
  intros H. unfold main. rewrite upload_missing_config by done.
  unfold exitCode, trace, networkRequests, orExit, emit, emits, exit.
  destruct (download_ok w), (extract_ok w), (outputDirExists w), (write_ok w);
    cbn [mbind io_bind mret io_ret fst snd app];
    rewrite ?app_nil_r, ?List.filter_app;
    cbn [List.filter isHttp app];
    rewrite ?List.filter_app; fold (networkRequests);
    rewrite ?networkRequests_reads; done.
Qed.

End Process.

Section Publish.

(** With both variables set, the publish step reads the file, looks the
    resource up and writes once; the payload carries [sha] exactly when the
    lookup produced a truthy one. *)
Lemma upload_configured w path text repoPath n :
  truthy (env_GITHUB_TOKEN w) = true → truthy (env_GITHUB_REPOSITORY w) = true →
  ∃ payload : gmap string value,
    trace (uploadToGitHub w path text repoPath n)
    = [FsReadFile path; Http GET (apiUrlOf w repoPath) None;
       Http PUT (apiUrlOf w repoPath) (Some payload)]
    ∧ payload !! "content" = Some (VString (base64 w text))
    ∧ is_Some (payload !! "message")
    ∧ payload !! "sha"
      = match sha_lookup w with
        | Responded (Some sha) => if truthy sha then Some sha else None
        | _ => None
        end.
Proof.
  intros Ht Hr. unfold uploadToGitHub. rewrite Ht, Hr.
  set (sha := match sha_lookup w with
              | Responded (Some sha) => if truthy sha then sha else VString []
              | _ => VString []
              end).
  set (base := <["content" := _]> (<["message" := _]> ∅)).
  exists (if truthy sha then <["sha" := sha]> base else base).
  split; [| split; [| split]].
  - unfold trace, orExit, emit, exit. destruct (put_ok w); reflexivity.
  - subst base. destruct (truthy sha);
      rewrite ?(lookup_insert_ne _ "sha") by done; by rewrite lookup_insert_eq.
  - subst base. destruct (truthy sha);
      rewrite ?(lookup_insert_ne _ "sha"), (lookup_insert_ne _ "content") by done;
      rewrite lookup_insert_eq; eauto.
  - subst sha base.
    destruct (sha_lookup w) as [[sha |] | status].
    + destruct (truthy sha) eqn:Hs.
      * rewrite Hs. by rewrite lookup_insert_eq.
      * cbn [truthy]. by rewrite !lookup_insert_ne, lookup_empty.
    + cbn [truthy]. by rewrite !lookup_insert_ne, lookup_empty.
    + cbn [truthy]. by rewrite !lookup_insert_ne, lookup_empty.
Qed.

End Publish.

(** ** The properties of the specification *)

(** *** Worked examples *)

Example ipToLong_private : ipToLong (str "192.168.1.1") = Ok (Fin 3232235777).
Proof. by vm_compute. Qed.

Example placeholder_range_base : ipToLong (str "101.x.x.x") = Ok (Fin 0).
Proof. by vm_compute. Qed.

(** [103.21.244.0/22] covers [103.21.244.0] to [103.21.247.255]. *)
Example filter_range_example :
  filterIps [str "103.21.244.0"; str "103.21.245.10"; str "103.21.247.255";
             str "103.21.248.1"]
  = [str "103.21.248.1"].
Proof. by vm_compute. Qed.

(** Two files with [1.2.3.4], [8.8.8.8], [1.2.3.4] and with [104.16.0.1]:
    three members collected, two left after the filter. *)
Example end_to_end_example :
  let files :=
    [ (lit "a.txt",
       Some (lit "1.2.3.4" ++ [10%N] ++ lit "8.8.8.8" ++ [13%N; 10%N]
               ++ lit "1.2.3.4"));
      (lit "b.txt", Some (lit "104.16.0.1" ++ [10%N])) ] in
  collect files = [lit "1.2.3.4"; lit "8.8.8.8"; lit "104.16.0.1"]
  ∧ filterIps (VString <$> collect files) = [str "1.2.3.4"; str "8.8.8.8"].
Proof. by vm_compute. Qed.

(** *** C1 *)

(** C1 (the code departs from it): a range of prefix length 0 should match
    every well-formed address.  The mask expression shifts by [32 - 0], and
    [<<] takes its count modulo 32, so the mask for prefix 0 comes out as all
    ones instead of all zeros: [isIpInCidr("1.2.3.4", "0.0.0.0/0")] is
    false, and a [/0] range matches only its own base address. *)
Theorem zero_prefix_mask_all_ones :
  maskOf (str "0") = Fin (2 ^ 32 - 1)
  ∧ isIpInCidr (str "1.2.3.4") (str "0.0.0.0/0") = Ok false
  ∧ isIpInCidr (str "0.0.0.0") (str "0.0.0.0/0") = Ok true.
Proof. by vm_compute. Qed.

(** *** C4 *)

(** C4: for a well-formed address [a.b.c.d] (digit strings of value 0-255),
    [ipToLong] is [a*2^24 + b*2^16 + c*2^8 + d]; and for a range [base/bits]
    with a prefix length [p] from 1 to 32, [isIpInCidr] returns true exactly
    when the address and the base agree under the mask whose top [p] bits are
    set and whose low [32 - p] bits are clear. *)
Theorem ipToLong_packs_and_isIpInCidr_masks (a b c d base bits : jsstring) :
  octetString a = true → octetString b = true →
  octetString c = true → octetString d = true →
  47%N ∉ base → digitString bits = true → 1 ≤ digitsValue bits ≤ 32 →
  let n := digitsValue a * 2 ^ 24 + digitsValue b * 2 ^ 16
           + digitsValue c * 2 ^ 8 + digitsValue d in
  let p := digitsValue bits in
  ipToLong (VString (dotted a b c d)) = Ok (Fin n)
  ∧ 0 ≤ n < 2 ^ 32
  ∧ (∀ i, 0 ≤ i < 32 → Z.testbit (cidrMask p) i = bool_decide (32 - p ≤ i))
  ∧ ∃ m, ipToLong (VString base) = Ok (Fin m)
         ∧ ∃ r, isIpInCidr (VString (dotted a b c d))
                           (VString (slashed base bits)) = Ok r
                ∧ (r = true ↔ Z.land n (cidrMask p) = Z.land m (cidrMask p)).
Proof.
  intros Ha Hb Hc Hd Hbase Hbits Hp n p.
  assert (Hoct : ∀ s, octetString s = true →
                      digitString s = true ∧ 0 ≤ digitsValue s ≤ 255).
  { intros s [Hs Hv%Z.leb_le]%andb_true_iff.
    pose proof (digitsValue_nonneg s Hs). done. }
  apply Hoct in Ha as [Ha Hva], Hb as [Hb Hvb], Hc as [Hc Hvc], Hd as [Hd Hvd].
  assert (Hn : 0 ≤ n < 2 ^ 32) by (unfold n; lia).
  assert (Hip : ipToLong (VString (dotted a b c d)) = Ok (Fin n)).
  { rewrite ipToLong_dotted.
    - fold n. by rewrite Z.mod_small.
    - repeat (apply Forall_cons; split; [split; [done | lia] |]). constructor. }
  split; [exact Hip |]. split; [exact Hn |].
  split; [intros i Hi; apply cidrMask_bits; lia |].
  destruct (isIpInCidr_masked (dotted a b c d) base bits Hbase Hbits Hp)
    as (n' & m & Hn' & Hm & Hr).
  rewrite Hip in Hn'. injection Hn' as <-.
  exists m. split; [exact Hm |].
  eexists. split; [exact Hr |]. fold p. apply bool_decide_eq_true.
Qed.

Lemma ipToLong_packs_and_isIpInCidr_masks_witness :
  ipToLong (str "103.21.245.10") = Ok (Fin 1729492234)
  ∧ isIpInCidr (str "103.21.245.10") (str "103.21.244.0/22") = Ok true
  ∧ Z.land 1729492234 (cidrMask 22) = Z.land 1729491968 (cidrMask 22).
Proof.
  destruct (ipToLong_packs_and_isIpInCidr_masks
              (lit "103") (lit "21") (lit "245") (lit "10")
              (lit "103.21.244.0") (lit "22"))
    as (Hip & _ & _ & m & Hm & r & Hr & Hiff);
    try reflexivity.
  - apply (bool_decide_unpack _). vm_compute. exact I.
  - vm_compute. split; discriminate.
  - split; [exact Hip |].
    assert (m = 1729491968) as -> by (vm_compute in Hm; congruence).
    assert (Hland : Z.land 1729492234 (cidrMask 22)
                    = Z.land 1729491968 (cidrMask 22)) by reflexivity.
    split; [| exact Hland].
    change (str "103.21.245.10") with (VString (dotted (lit "103") (lit "21")
                                          (lit "245") (lit "10"))).
    change (str "103.21.244.0/22")
      with (VString (slashed (lit "103.21.244.0") (lit "22"))).
    rewrite Hr. f_equal. apply Hiff. exact Hland.
Defined.

(** *** C3 *)

(** C3: an address of the input set that [isIpInCidr] matches against some
    range of [bannedCidrs] does not occur in the filtered sequence. *)
Theorem filter_sound (ips : list jsstring) (A R : jsstring) :
  A ∈ ips → R ∈ bannedCidrs →
  isIpInCidr (VString A) (VString R) = Ok true →
  VString A ∉ filterIps (VString <$> ips).
Proof.
  intros _ HR Hmatch [_ Hkeep]%filterWith_elem.
  rewrite keeps_true_iff in Hkeep. specialize (Hkeep R HR). congruence.
Qed.

Lemma filter_sound_witness :
  str "103.21.245.10" ∉ filterIps [str "103.21.245.10"; str "103.21.248.1"].
Proof.
  apply (filter_sound [lit "103.21.245.10"; lit "103.21.248.1"]
           (lit "103.21.245.10") (lit "103.21.244.0/22")).
  - left.
  - apply (bool_decide_unpack _). vm_compute. exact I.
  - vm_compute. reflexivity.
Defined.

(** *** C9 *)

(** C9: filtering the output of the filter again changes nothing: no element
    is removed and the order stays. *)
Theorem filter_idempotent (ips : list value) :
  filterIps (filterIps ips) = filterIps ips.
Proof. apply filterWith_idem. Qed.

(** *** C6 *)

(** C6: when the membership test raises on some range that the loop reaches,
    the callback returns false on the spot: the ranges after it are not
    tested, the address is excluded, and the filter goes on with the other
    candidates.  More generally an address is excluded as soon as the test
    raises on any of the ranges. *)
Theorem filter_fails_closed
    (test : value → value → result bool) (ip : value)
    (before : list jsstring) (R : jsstring) (after : list jsstring) (e : exn)
    (earlier later : list value) :
  (∀ c, c ∈ before → test ip (VString c) = Ok false) →
  test ip (VString R) = Throw e →
  check test ip (before ++ R :: after) = (before ++ [R], Caught)
  ∧ keeps test (before ++ R :: after) ip = false
  ∧ filterWith test (before ++ R :: after) (earlier ++ ip :: later)
    = filterWith test (before ++ R :: after) earlier
      ++ filterWith test (before ++ R :: after) later
  ∧ ∀ cidrs, R ∈ cidrs → keeps test cidrs ip = false.
Proof.
  intros Hbefore Hthrow.
  assert (Hcheck : check test ip (before ++ R :: after)
                   = (before ++ [R], Caught)).
  { rewrite check_app_false by done. cbn [check]. by rewrite Hthrow. }
  assert (Hkeep : keeps test (before ++ R :: after) ip = false)
    by (unfold keeps; by rewrite Hcheck).
  split; [exact Hcheck |]. split; [exact Hkeep |]. split.
  - rewrite filterWith_app. f_equal.
    unfold filterWith. cbn [List.filter]. by rewrite Hkeep.
  - intros cidrs HR. apply not_true_is_false. intros Hk.
    rewrite keeps_true_iff in Hk. specialize (Hk R HR). congruence.
Qed.

(** An element that is not a string makes [isIpInCidr] throw. *)
Lemma filter_fails_closed_witness :
  isIpInCidr VUndefined (str "101.x.x.x/15") = Throw TypeError
  ∧ check isIpInCidr VUndefined bannedCidrs = ([lit "101.x.x.x/15"], Caught)
  ∧ filterIps [str "8.8.8.8"; VUndefined; str "1.2.3.4"]
    = filterIps [str "8.8.8.8"] ++ filterIps [str "1.2.3.4"].
Proof.
  assert (Hthrow : isIpInCidr VUndefined (str "101.x.x.x/15") = Throw TypeError)
    by reflexivity.
  destruct (filter_fails_closed isIpInCidr VUndefined []
              (lit "101.x.x.x/15") (tail bannedCidrs) TypeError
              [str "8.8.8.8"] [str "1.2.3.4"])
    as (Hcheck & _ & Hfilter & _).
  - intros c Hc. by apply elem_of_nil in Hc.
  - exact Hthrow.
  - split; [exact Hthrow |]. split; [exact Hcheck | exact Hfilter].
Defined.

(** *** C10 *)



(** *** C7 *)

(** C7: the collected set holds exactly the distinct trimmed non-empty lines
    of the readable [.txt] files.  It has no duplicates; its members are the
    non-empty trimmed lines; its size is the number of distinct ones; a line
    of white space only adds nothing; and two directory listings with the
    same lines, however spread over files or repeated in another order, give
    sets with the same members and the same size.

    "Trimmed" and "line" are meant as follows.  The trimming of a line is
    the line with the white space taken off at both ends and none left
    there, and nothing else; so the members are the non-empty strings that
    some line is such a string plus white space around it, and the size of
    the set is the length of every duplicate-free enumeration of those
    strings.  A line ends at a line feed, or at a carriage return directly
    followed by one; a text without line feed is one line.  The lines read
    are those of the entries whose name ends in [.txt] and whose read
    succeeds. *)
Theorem collect_distinct_trimmed_lines (entries : list entry) :
  NoDup (collect entries)
  ∧ (∀ x, x ∈ collect entries
          ↔ x ≠ [] ∧ ∃ line, line ∈ allLines entries ∧ trim line = x)
  ∧ length (collect entries) = length (remove_dups (trimmedLines entries))
  ∧ (∀ ipSet line, forallb isWhiteSpace line = true → addLine ipSet line = ipSet)
  ∧ (∀ entries',
       allLines entries ≡ₚ allLines entries' →
       collect entries ≡ₚ collect entries'
       ∧ length (collect entries) = length (collect entries'))
  ∧ (∀ line x, trim line = x ↔ stripped line x)
  ∧ (∀ x, x ∈ collect entries
          ↔ x ≠ [] ∧ ∃ line, line ∈ allLines entries ∧ stripped line x)
  ∧ (∀ distinct : list jsstring,
       NoDup distinct →
       (∀ x, x ∈ distinct
             ↔ x ≠ [] ∧ ∃ line, line ∈ allLines entries ∧ stripped line x) →
       length (collect entries) = length distinct)
  ∧ (∀ a, 10%N ∉ a → splitLines a = [a])
  ∧ (∀ a b, 10%N ∉ a → last a ≠ Some 13%N →
            splitLines (a ++ 10%N :: b) = a :: splitLines b)
  ∧ (∀ a b, 10%N ∉ a →
            splitLines (a ++ 13%N :: 10%N :: b) = a :: splitLines b)
  ∧ (∀ line, line ∈ allLines entries
             ↔ ∃ name text,
                 (name, Some text) ∈ entries
                 ∧ (∃ stem, name = stem ++ lit ".txt")
                 ∧ line ∈ splitLines text).
Proof.
  assert (Htrim : ∀ line x, trim line = x ↔ stripped line x).
  { intros line x. split; [intros <-; apply trim_stripped | apply stripped_trim]. }
  assert (Helem : ∀ x, x ∈ collect entries
                       ↔ x ≠ [] ∧ ∃ line, line ∈ allLines entries
                                          ∧ stripped line x).
  { intros x. rewrite collect_elem.
    split; intros [Hne (line & Hin & Ht)]; (split; [done |]);
      exists line; (split; [done |]); by apply Htrim. }
  split; [apply collect_NoDup |].
  split; [apply collect_elem |].
  split; [by rewrite collect_distinct |].
  split; [intros ipSet line Hblank; unfold addLine; by rewrite trim_blank |].
  split.
  { intros entries' Hperm.
    assert (Hsame : collect entries ≡ₚ collect entries').
    { apply NoDup_Permutation; [apply collect_NoDup .. |].
      intros x. rewrite !collect_elem.
      split; intros [Hne (line & Hin & Ht)]; (split; [done |]);
        exists line; (split; [| done]).
      - by rewrite <- Hperm.
      - by rewrite Hperm. }
    split; [exact Hsame | by rewrite Hsame]. }
  split; [exact Htrim |].
  split; [exact Helem |].
  split.
  { intros distinct Hnd Hdistinct.
    assert (Hsame : collect entries ≡ₚ distinct).
    { apply NoDup_Permutation; [apply collect_NoDup | exact Hnd |].
      intros x. by rewrite Helem, Hdistinct. }
    by rewrite Hsame. }
  split; [exact splitLines_single |].
  split; [exact splitLines_app_lf |].
  split; [exact splitLines_app_crlf | apply allLines_elem].
Qed.

Lemma collect_distinct_trimmed_lines_witness :
  let two :=
    [ (lit "a.txt",
       Some (lit "1.2.3.4 " ++ [10%N] ++ lit " 8.8.8.8" ++ [13%N; 10%N]
               ++ lit "1.2.3.4" ++ [9%N]));
      (lit "b.txt", Some (lit "104.16.0.1" ++ [10%N] ++ lit "   ")) ] in
  let one :=
    [ (lit "c.txt",
       Some (lit "1.2.3.4 " ++ [10%N] ++ lit " 8.8.8.8" ++ [10%N]
               ++ lit "1.2.3.4" ++ [9%N; 10%N] ++ lit "104.16.0.1"
               ++ [13%N; 10%N] ++ lit "   ")) ] in
  allLines two ≡ₚ allLines one
  ∧ collect two ≡ₚ collect one
  ∧ collect two = [lit "1.2.3.4"; lit "8.8.8.8"; lit "104.16.0.1"]
  ∧ stripped (lit "1.2.3.4" ++ [9%N]) (lit "1.2.3.4")
  ∧ splitLines (lit " 8.8.8.8" ++ [13%N; 10%N] ++ lit "1.2.3.4" ++ [9%N])
    = [lit " 8.8.8.8"; lit "1.2.3.4" ++ [9%N]].
Proof.
  intros two one.
  assert (Hlines : allLines two ≡ₚ allLines one).
  { replace (allLines one) with (allLines two) by (by vm_compute). done. }
  destruct (collect_distinct_trimmed_lines two)
    as (_ & _ & _ & _ & Hindep & Htrim & _ & _ & Hsingle & _ & Hcrlf & _).
  destruct (Hindep one Hlines) as [Hperm _].
  split; [exact Hlines |]. split; [exact Hperm |].
  split; [by vm_compute |]. split.
  - apply Htrim. by vm_compute.
  - change (lit " 8.8.8.8" ++ [13%N; 10%N] ++ lit "1.2.3.4" ++ [9%N])
      with (lit " 8.8.8.8" ++ 13%N :: 10%N :: (lit "1.2.3.4" ++ [9%N])).
    rewrite Hcrlf, Hsingle; [reflexivity | |];
      apply (bool_decide_unpack _); by vm_compute.
Defined.

(** *** C8 *)

(** C8: whatever the draws, each within [0, i] for its index [i], the loop
    leaves a permutation of the sequence it started from: the same elements
    with the same multiplicities, and the same length.  Under that bound
    every swap reads two elements of the array. *)
Theorem shuffle_is_permutation {A} (draw : nat → nat) (a : list A) :
  (∀ i, (1 ≤ i < length a)%nat → (draw i ≤ i)%nat) →
  shuffle draw a ≡ₚ a
  ∧ length (shuffle draw a) = length a
  ∧ ∀ i (b : list A), (1 ≤ i < length a)%nat → length b = length a →
      is_Some (b !! i) ∧ is_Some (b !! draw i).
Proof.
  intros Hdraw.
  assert (Hperm : shuffle draw a ≡ₚ a) by apply shuffleFrom_Permutation.
  split; [exact Hperm |]. split; [by rewrite Hperm |].
  intros i b Hi Hb. specialize (Hdraw i Hi).
  split; apply lookup_lt_is_Some; lia.
Qed.

Lemma shuffle_is_permutation_witness :
  shuffle (fun i => Nat.div2 i) [1; 2; 3; 4; 5]%nat ≡ₚ [1; 2; 3; 4; 5]%nat
  ∧ shuffle (fun i => Nat.div2 i) [1; 2; 3; 4; 5]%nat = [5; 1; 4; 2; 3]%nat.
Proof.
  destruct (shuffle_is_permutation (fun i => Nat.div2 i) [1; 2; 3; 4; 5]%nat)
    as (Hperm & _ & _).
  - intros i Hi. cbn [length] in Hi.
    assert (Hc : (i = 1 ∨ i = 2 ∨ i = 3 ∨ i = 4)%nat) by lia.
    destruct Hc as [-> | [-> | [-> | ->]]]; cbn; lia.
  - split; [exact Hperm | reflexivity].
Defined.

(** *** C5 *)

(** C5: in the publish step with its configuration present, the lookup is
    followed by one write.  When the lookup answers with a revision token
    [T], the payload of the write has [sha] equal to [T]; when the lookup is
    rejected with status 404, the payload has no [sha] field. *)
Theorem publish_token_discipline
    (w : world) (path text repoPath : jsstring) (n : nat) :
  truthy (env_GITHUB_TOKEN w) = true →
  truthy (env_GITHUB_REPOSITORY w) = true →
  ∃ payload : gmap string value,
    trace (uploadToGitHub w path text repoPath n)
    = [FsReadFile path; Http GET (apiUrlOf w repoPath) None;
       Http PUT (apiUrlOf w repoPath) (Some payload)]
    ∧ (∀ T, T ≠ [] → sha_lookup w = Responded (Some (VString T)) →
            payload !! "sha" = Some (VString T))
    ∧ (sha_lookup w = Rejected (Some 404) → payload !! "sha" = None).
Proof.
  intros Ht Hr.
  destruct (upload_configured w path text repoPath n Ht Hr)
    as (payload & Htrace & _ & _ & Hsha).
  exists payload. split; [exact Htrace |]. split.
  - intros T HT Hfound. rewrite Hsha, Hfound. by destruct T.
  - intros Hnot. by rewrite Hsha, Hnot.
Qed.

Lemma publish_token_discipline_witness :
  (∃ payload : gmap string value,
     networkRequests
       (trace (main (sampleWorld (str "t0k3n") (str "owner/repo")
                       (Responded (Some (str "95d09f2b"))))))
     = [Http GET downloadUrl None;
        Http GET (lit "https://api.github.com/repos/owner/repo/contents/BestProxy/bestproxy.txt") None;
        Http PUT (lit "https://api.github.com/repos/owner/repo/contents/BestProxy/bestproxy.txt")
             (Some payload)]
     ∧ payload !! "sha" = Some (str "95d09f2b"))
  ∧ (∃ payload : gmap string value,
       networkRequests
         (trace (main (sampleWorld (str "t0k3n") (str "owner/repo")
                         (Rejected (Some 404)))))
       = [Http GET downloadUrl None;
          Http GET (lit "https://api.github.com/repos/owner/repo/contents/BestProxy/bestproxy.txt") None;
          Http PUT (lit "https://api.github.com/repos/owner/repo/contents/BestProxy/bestproxy.txt")
               (Some payload)]
       ∧ payload !! "sha" = None).
Proof.
  split.
  - set (w := sampleWorld (str "t0k3n") (str "owner/repo")
                (Responded (Some (str "95d09f2b")))).
    set (ips := shuffle (draw w) (filterIps (VString <$> collect (workDirEntries w)))).
    destruct (publish_token_discipline w outputFilePath
                (join [10%N] ips) repoOutputPath (length ips))
      as (payload & Htrace & Hfound & _); [reflexivity .. |].
    exists payload. split.
    + unfold main. fold ips. unfold trace in *.
      destruct (uploadToGitHub w outputFilePath (join [10%N] ips)
                  repoOutputPath (length ips)) as [t o].
      cbn [fst] in Htrace. subst t. reflexivity.
    + apply Hfound; [discriminate | reflexivity].
  - set (w := sampleWorld (str "t0k3n") (str "owner/repo") (Rejected (Some 404))).
    set (ips := shuffle (draw w) (filterIps (VString <$> collect (workDirEntries w)))).
    destruct (publish_token_discipline w outputFilePath
                (join [10%N] ips) repoOutputPath (length ips))
      as (payload & Htrace & _ & Hnone); [reflexivity .. |].
    exists payload. split.
    + unfold main. fold ips. unfold trace in *.
      destruct (uploadToGitHub w outputFilePath (join [10%N] ips)
                  repoOutputPath (length ips)) as [t o].
      cbn [fst] in Htrace. subst t. reflexivity.
    + apply Hnone. reflexivity.
Defined.

(** *** C2 *)




(** ** Further properties of the range test *)

Section Ranges.

(** Masking with a network mask clears the low [32 - p] bits. *)
Lemma land_cidrMask n p :
  0 ≤ n < 2 ^ 32 → 0 ≤ p ≤ 32 →
  Z.land n (cidrMask p) = n - n mod 2 ^ (32 - p).
Proof.
  intros Hn Hp. unfold cidrMask.
  assert (Hhi : ∀ i, 32 ≤ i → Z.testbit n i = false).
  { intros i Hi. destruct (Z.eq_dec n 0) as [-> | Hne]; [apply Z.bits_0 |].
    apply Z.bits_above_log2; [lia |].
    apply Z.lt_le_trans with 32; [| lia]. apply Z.log2_lt_pow2; lia. }
  replace (n - n mod 2 ^ (32 - p)) with (Z.shiftl (Z.shiftr n (32 - p)) (32 - p)).
  - apply Z.bits_inj'. intros i Hi.
    rewrite Z.land_spec, !Z.shiftl_spec by lia.
    destruct (Z.lt_ge_cases i (32 - p)) as [Hlow | Hge].
    + rewrite (Z.testbit_neg_r (Z.ones p)), (Z.testbit_neg_r (Z.shiftr n _))
        by lia.
      apply andb_false_r.
    + rewrite Z.shiftr_spec by lia. replace (i - (32 - p) + (32 - p)) with i by lia.
      destruct (Z.lt_ge_cases i 32) as [Hlt | Hbig].
      * rewrite Z.ones_spec_low by lia. apply andb_true_r.
      * rewrite Hhi by lia. reflexivity.
  - rewrite Z.shiftl_mul_pow2, Z.shiftr_div_pow2 by lia.
    assert (0 < 2 ^ (32 - p)) by (apply Z.pow_pos_nonneg; lia).
    pose proof (Z.div_mod n (2 ^ (32 - p)) ltac:(lia)) as Hdm. lia.
Qed.

(** Two integers agree above the low [k] bits exactly when the one lies in
    the aligned block of size [2^k] around the other. *)
Lemma same_block n m K :
  0 < K →
  n - n mod K = m - m mod K ↔ m - m mod K ≤ n < m - m mod K + K.
Proof.
  intros HK.
  pose proof (Z.mod_pos_bound n K HK) as Hn.
  pose proof (Z.mod_pos_bound m K HK) as Hm.
  pose proof (Z.div_mod n K ltac:(lia)) as Hdn.
  pose proof (Z.div_mod m K ltac:(lia)) as Hdm.
  split; [lia |]. intros Hblock.
  assert (Hq : n / K = m / K).
  { symmetry. apply Z.div_unique with (r := n - (m - m mod K)); lia. }
  assert (En : n - n mod K = K * (n / K)) by lia.
  assert (Em : m - m mod K = K * (m / K)) by lia.
  by rewrite En, Em, Hq.
Qed.

(** What [isIpInCidr] computes on two strings: the comparison of the two
    integers under the mask of the second piece of the range. *)
Lemma isIpInCidr_unfold ip cidr :
  ∃ range rest a b,
    split 47 cidr = range :: rest
    ∧ ipToLong (VString ip) = Ok (Fin a) ∧ 0 ≤ a < 2 ^ 32
    ∧ ipToLong (VString range) = Ok (Fin b) ∧ 0 ≤ b < 2 ^ 32
    ∧ isIpInCidr (VString ip) (VString cidr)
      = Ok (strictEq (band (Fin a) (maskOf (element (range :: rest) 1)))
                     (band (Fin b) (maskOf (element (range :: rest) 1)))).
Proof.
  destruct (split 47 cidr) as [| range rest] eqn:Hs;
    [by apply split_nonempty in Hs |].
  destruct (ipToLong_total ip) as (a & Ha & Hra).
  destruct (ipToLong_total range) as (b & Hb & Hrb).
  exists range, rest, a, b. repeat (split; [done |]).
  unfold isIpInCidr. cbn [split_method mbind result_bind]. rewrite Hs.
  change (element (range :: rest) 0) with (VString range).
  rewrite Ha, Hb. reflexivity.
Qed.

(** The mask as a function of the shift count. *)
Lemma mask_of_shift k :
  0 ≤ k < 32 →
  ushr (bitnot (sub (Fin (wrapInt32 (Z.shiftl 1 k))) (Fin 1))) (Fin 0)
  = Fin (2 ^ 32 - 2 ^ k).
Proof.
  intros Hk.
  assert (Hin : k ∈ seqZ 0 32) by (apply elem_of_seqZ; lia).
  clear Hk. revert k Hin. apply (proj1 (Forall_forall _ _)).
  replace (seqZ 0 32) with (Z.of_nat <$> seq 0 32) by (by vm_compute).
  cbn [seq fmap list_fmap].
  repeat (apply Forall_cons; split; [by vm_compute |]). constructor.
Qed.

(** The mask for a numeric prefix length [p]: only [p] modulo 32 counts. *)
Lemma maskOf_digits bits :
  digitString bits = true → digitsValue bits < 2 ^ 53 →
  maskOf (VString bits) = Fin (2 ^ 32 - 2 ^ ((32 - digitsValue bits) mod 32)).
Proof.
  intros Hbits Hv. pose proof (digitsValue_nonneg bits Hbits) as H0.
  unfold maskOf. rewrite parseInt_digits by (done || lia).
  unfold sub at 2. cbn [neg add]. rewrite roundDouble_small by lia.
  unfold shl. cbn [toUint32].
  change (toInt32 (Fin 1)) with 1.
  rewrite Z.mod_mod_divide by (by exists (2 ^ 27)).
  replace (32 + - digitsValue bits) with (32 - digitsValue bits) by lia.
  apply mask_of_shift. apply Z.mod_pos_bound. lia.
Qed.

(** A prefix part that is missing or not numeric gives the all-ones mask. *)
Lemma maskOf_NaN bits : parseInt bits = NaN → maskOf bits = Fin (2 ^ 32 - 1).
Proof. intros H. unfold maskOf. rewrite H. reflexivity. Qed.

Lemma band_ones_eq a b :
  0 ≤ a < 2 ^ 32 → 0 ≤ b < 2 ^ 32 →
  strictEq (band (Fin a) (Fin (2 ^ 32 - 1))) (band (Fin b) (Fin (2 ^ 32 - 1)))
  = bool_decide (a = b).
Proof.
  intros Ha Hb. rewrite band_eq by lia.
  change (2 ^ 32 - 1) with (Z.ones 32).
  rewrite !Z.land_ones, !Z.mod_small by lia. reflexivity.
Qed.

End Ranges.

(** ** Further properties of the conversion *)

Section Conversion.

(** Splitting at a separator splits the two sides. *)
Lemma split_app_sep sep pre s :
  split sep (pre ++ sep :: s) = split sep pre ++ split sep s.
Proof.
  induction pre as [| c pre IH]; cbn [app split].
  - by rewrite N.eqb_refl.
  - destruct (c =? sep)%N; rewrite IH; [done |].
    destruct (split sep pre) eqn:Hs; [by apply split_nonempty in Hs | done].
Qed.

Lemma split_app_last sep pre d :
  sep ∉ d → split sep (pre ++ sep :: d) = split sep pre ++ [d].
Proof. intros Hd. by rewrite split_app_sep, (split_no_sep sep d). Qed.

Lemma split_dotted a b c d :
  octetString a = true → octetString b = true →
  octetString c = true → octetString d = true →
  split 46 (dotted a b c d) = [a; b; c; d].
Proof.
  intros [Ha _]%andb_true_iff [Hb _]%andb_true_iff
         [Hc _]%andb_true_iff [Hd _]%andb_true_iff.
  unfold dotted.
  by rewrite !split_app, split_no_sep by (apply digitString_no_sep; auto).
Qed.

Lemma takeDigits_junk s x rest :
  forallb isDigit s = true → isDigit x = false →
  takeDigits (s ++ x :: rest) = takeDigits s.
Proof.
  intros Hs Hx. induction s as [| c s IH]; cbn [app takeDigits].
  - unfold digitVal. fold (isDigit x). by rewrite Hx.
  - apply andb_true_iff in Hs as [Hc Hs].
    destruct (digitVal c); [by rewrite IH | done].
Qed.

(** [parseInt] stops at the first character that is not a digit. *)
Lemma parseInt_junk s x rest :
  digitString s = true → isDigit x = false →
  parseInt (VString (s ++ x :: rest)) = parseInt (VString s).
Proof.
  intros Hs Hx. destruct s as [| c t]; [done |].
  unfold digitString in Hs.
  pose proof Hs as [Hc Ht]%andb_true_iff.
  pose proof (isDigit_cases c Hc) as (Hws & Hm & Hp & _).
  unfold parseInt. cbn [toString app trimStart]. rewrite Hws, Hm, Hp.
  change (c :: t ++ x :: rest) with ((c :: t) ++ x :: rest).
  by rewrite takeDigits_junk.
Qed.

Lemma wrapInt32_idem z : wrapInt32 (wrapInt32 z) = wrapInt32 z.
Proof. apply wrapInt32_small, wrapInt32_range. Qed.

Lemma toInt32_range r : - 2 ^ 31 ≤ toInt32 r < 2 ^ 31.
Proof. destruct r; cbn; try lia. apply wrapInt32_range. Qed.

(** The reducer sees its accumulator only through ToInt32. *)
Lemma pack_toInt32 r s : pack r s = pack (Fin (toInt32 r)) s.
Proof.
  unfold pack, shl. cbn [toInt32].
  by rewrite (wrapInt32_small (toInt32 r)) by apply toInt32_range.
Qed.

(** After four octets nothing of the accumulator they started from is left
    in the low 32 bits. *)
Lemma fold_pack_four r a b c d :
  octetString a = true → octetString b = true →
  octetString c = true → octetString d = true →
  toUint32 (fold_left pack [a; b; c; d] r)
  = digitsValue a * 2 ^ 24 + digitsValue b * 2 ^ 16
    + digitsValue c * 2 ^ 8 + digitsValue d.
Proof.
  intros Ha Hb Hc Hd.
  assert (Hoct : ∀ s, octetString s = true →
                      digitString s = true ∧ 0 ≤ digitsValue s ≤ 255).
  { intros s [Hs Hv%Z.leb_le]%andb_true_iff.
    pose proof (digitsValue_nonneg s Hs). done. }
  apply Hoct in Ha as [Ha Hva], Hb as [Hb Hvb], Hc as [Hc Hvc], Hd as [Hd Hvd].
  cbn [fold_left]. rewrite (pack_toInt32 r).
  change (pack (pack (pack (pack (Fin (toInt32 r)) a) b) c) d)
    with (fold_left pack [a; b; c; d] (Fin (toInt32 r))).
  destruct (fold_pack_digits [a; b; c; d] (toInt32 r)) as (y & -> & Hy).
  { repeat (apply Forall_cons; split; [split; [done | lia] |]). constructor. }
  cbn [toUint32]. rewrite Hy. unfold packed. cbn [fold_left].
  replace ((((toInt32 r * 2 ^ 8 + digitsValue a) * 2 ^ 8 + digitsValue b)
              * 2 ^ 8 + digitsValue c) * 2 ^ 8 + digitsValue d)
    with (digitsValue a * 2 ^ 24 + digitsValue b * 2 ^ 16
          + digitsValue c * 2 ^ 8 + digitsValue d + toInt32 r * 2 ^ 32) by lia.
  rewrite Z_mod_plus_full. apply Z.mod_small. lia.
Qed.

(** Equal integers, equal verdicts. *)
Lemma isIpInCidr_alias ip ip' cidr :
  ipToLong ip = ipToLong ip' → isIpInCidr ip cidr = isIpInCidr ip' cidr.
Proof. intros H. unfold isIpInCidr. by rewrite H. Qed.

Lemma check_alias ip ip' cidrs :
  ipToLong ip = ipToLong ip' →
  check isIpInCidr ip cidrs = check isIpInCidr ip' cidrs.
Proof.
  intros H. induction cidrs as [| c cidrs IH]; [done |].
  cbn [check]. by rewrite (isIpInCidr_alias ip ip' _ H), IH.
Qed.

End Conversion.

(** ** Further properties: ranges and addresses *)

(** X1: a range [base/p] with [p] from 1 to 32 is the aligned block of
    [2^(32-p)] consecutive integers that contains the base: an address
    matches exactly when its integer lies in that block. *)
Theorem range_is_aligned_block (ip base bits : jsstring) :
  47%N ∉ base → digitString bits = true → 1 ≤ digitsValue bits ≤ 32 →
  ∃ a b,
    ipToLong (VString ip) = Ok (Fin a) ∧ ipToLong (VString base) = Ok (Fin b)
    ∧ let size := 2 ^ (32 - digitsValue bits) in
      let first := b - b mod size in
      isIpInCidr (VString ip) (VString (slashed base bits))
      = Ok (bool_decide (first ≤ a < first + size)).
Proof.
  intros Hbase Hbits Hp.
  destruct (isIpInCidr_masked ip base bits Hbase Hbits Hp)
    as (a & b & Ha & Hb & Hr).
  destruct (ipToLong_total ip) as (a' & Ha' & Hra).
  destruct (ipToLong_total base) as (b' & Hb' & Hrb).
  assert (a' = a) as -> by congruence. assert (b' = b) as -> by congruence.
  exists a, b. split; [done |]. split; [done |]. cbn zeta.
  rewrite Hr. f_equal. apply bool_decide_ext.
  rewrite !land_cidrMask by lia.
  apply same_block. apply Z.pow_pos_nonneg; lia.
Qed.

Lemma range_is_aligned_block_witness :
  isIpInCidr (str "103.21.247.255") (str "103.21.244.0/22") = Ok true
  ∧ isIpInCidr (str "103.21.248.0") (str "103.21.244.0/22") = Ok false.
Proof.
  split.
  - destruct (range_is_aligned_block (lit "103.21.247.255")
                (lit "103.21.244.0") (lit "22"))
      as (a & b & Ha & Hb & Hr).
    + apply (bool_decide_unpack _). by vm_compute.
    + reflexivity.
    + by vm_compute.
    + assert (a = 1729492991) as -> by (vm_compute in Ha; congruence).
      assert (b = 1729491968) as -> by (vm_compute in Hb; congruence).
      exact Hr.
  - destruct (range_is_aligned_block (lit "103.21.248.0")
                (lit "103.21.244.0") (lit "22"))
      as (a & b & Ha & Hb & Hr).
    + apply (bool_decide_unpack _). by vm_compute.
    + reflexivity.
    + by vm_compute.
    + assert (a = 1729492992) as -> by (vm_compute in Ha; congruence).
      assert (b = 1729491968) as -> by (vm_compute in Hb; congruence).
      exact Hr.
Defined.

(** Beyond the safe integers the rounded value counts: this prefix length is
    congruent to 1 modulo 32, yet it rounds to [2^53] and acts as [/32]. *)
Example prefix_beyond_safe_integers :
  digitsValue (lit "9007199254740993") mod 32 = 1
  ∧ maskOf (str "9007199254740993") = maskOf (str "32")
  ∧ maskOf (str "9007199254740993") ≠ maskOf (str "1").
Proof. by vm_compute. Qed.

(** X2: a numeric prefix length below [2^53], up to where [parseInt] and the
    subtraction from 32 are exact, enters the mask only modulo 32: two such
    prefix lengths that are congruent modulo 32 give the same verdict on
    every address, so [/0] acts as [/32] and [/33] as [/1]. *)
Theorem prefix_length_counts_modulo_32 (ip base bits bits' : jsstring) :
  47%N ∉ base →
  digitString bits = true → digitsValue bits < 2 ^ 53 →
  digitString bits' = true → digitsValue bits' < 2 ^ 53 →
  digitsValue bits mod 32 = digitsValue bits' mod 32 →
  isIpInCidr (VString ip) (VString (slashed base bits))
  = isIpInCidr (VString ip) (VString (slashed base bits')).
Proof.
  intros Hbase Hb Hv Hb' Hv' Hmod.
  unfold isIpInCidr, slashed. cbn [split_method mbind result_bind].
  rewrite !split_app, !split_no_sep by (done || apply digitString_no_sep; auto).
  change (element [base; bits] 0) with (VString base).
  change (element [base; bits'] 0) with (VString base).
  change (element [base; bits] 1) with (VString bits).
  change (element [base; bits'] 1) with (VString bits').
  rewrite !maskOf_digits by done.
  rewrite (Zminus_mod 32 (digitsValue bits)), Hmod, <- Zminus_mod.
  reflexivity.
Qed.

Lemma prefix_length_counts_modulo_32_witness :
  isIpInCidr (str "10.0.0.1") (str "10.0.0.0/0")
  = isIpInCidr (str "10.0.0.1") (str "10.0.0.0/32")
  ∧ isIpInCidr (str "10.0.0.1") (str "10.0.0.0/32") = Ok false.
Proof.
  split; [| by vm_compute].
  apply (prefix_length_counts_modulo_32 (lit "10.0.0.1") (lit "10.0.0.0")
           (lit "0") (lit "32")); try reflexivity.
  apply (bool_decide_unpack _). by vm_compute.
Defined.

(** X3: when the part after the slash is missing or does not start with a
    number, the mask is all ones: the range matches exactly the addresses
    whose integer equals that of the part before the slash. *)
Theorem range_without_prefix_is_exact (ip cidr : jsstring) :
  parseInt (element (split 47 cidr) 1) = NaN →
  ∃ range rest a b,
    split 47 cidr = range :: rest
    ∧ ipToLong (VString ip) = Ok (Fin a)
    ∧ ipToLong (VString range) = Ok (Fin b)
    ∧ isIpInCidr (VString ip) (VString cidr) = Ok (bool_decide (a = b)).
Proof.
  intros Hnan.
  destruct (isIpInCidr_unfold ip cidr)
    as (range & rest & a & b & Hs & Ha & Hra & Hb & Hrb & Hr).
  exists range, rest, a, b. repeat (split; [done |]).
  rewrite Hr. rewrite Hs in Hnan. rewrite (maskOf_NaN _ Hnan).
  f_equal. by apply band_ones_eq.
Qed.

Lemma range_without_prefix_is_exact_witness :
  isIpInCidr (str "8.8.8.8") (str "8.8.8.8") = Ok true
  ∧ isIpInCidr (str "8.8.8.9") (str "8.8.8.0/x") = Ok false.
Proof.
  split.
  - destruct (range_without_prefix_is_exact (lit "8.8.8.8") (lit "8.8.8.8"))
      as (range & rest & a & b & Hs & Ha & Hb & Hr); [reflexivity |].
    vm_compute in Hs. injection Hs as <- <-.
    assert (a = b) as -> by (vm_compute in Ha, Hb; congruence).
    rewrite bool_decide_eq_true_2 in Hr by done. exact Hr.
  - destruct (range_without_prefix_is_exact (lit "8.8.8.9") (lit "8.8.8.0/x"))
      as (range & rest & a & b & Hs & Ha & Hb & Hr); [reflexivity |].
    vm_compute in Hs. injection Hs as <- <-.
    assert (a = 134744073) as -> by (vm_compute in Ha; congruence).
    assert (b = 134744064) as -> by (vm_compute in Hb; congruence).
    exact Hr.
Defined.

(** X4: the base of a range always matches its own range, whatever follows
    the slash. *)
Theorem base_matches_own_range (base bits : jsstring) :
  47%N ∉ base →
  isIpInCidr (VString base) (VString (slashed base bits)) = Ok true.
Proof.
  intros Hbase.
  destruct (isIpInCidr_unfold base (slashed base bits))
    as (range & rest & a & b & Hs & Ha & _ & Hb & _ & Hr).
  unfold slashed in Hs. rewrite split_app in Hs by done.
  injection Hs as <- <-. assert (a = b) as -> by congruence.
  rewrite Hr. unfold band, strictEq. by rewrite Z.eqb_refl.
Qed.

Lemma base_matches_own_range_witness :
  isIpInCidr (str "101.x.x.x") (str "101.x.x.x/15") = Ok true.
Proof.
  apply (base_matches_own_range (lit "101.x.x.x") (lit "15")).
  apply (bool_decide_unpack _). by vm_compute.
Defined.

(** X5: the filter sees an address only through its integer: two strings
    that [ipToLong] maps to the same integer are both kept or both dropped,
    against any list of ranges. *)
Theorem same_integer_same_verdict (ip ip' : jsstring) (cidrs : list jsstring) :
  ipToLong (VString ip) = ipToLong (VString ip') →
  check isIpInCidr (VString ip) cidrs = check isIpInCidr (VString ip') cidrs
  ∧ keeps isIpInCidr cidrs (VString ip) = keeps isIpInCidr cidrs (VString ip').
Proof.
  intros H. unfold keeps. by rewrite (check_alias _ _ cidrs H).
Qed.

Lemma same_integer_same_verdict_witness :
  keeps isIpInCidr bannedCidrs (str "104.15.255.256")
  = keeps isIpInCidr bannedCidrs (str "104.16.0.0")
  ∧ keeps isIpInCidr bannedCidrs (str "104.16.0.0") = false.
Proof.
  split; [| by vm_compute].
  apply (same_integer_same_verdict (lit "104.15.255.256") (lit "104.16.0.0")).
  by vm_compute.
Defined.

(** X6: whatever follows the digits of the last segment, up to the end of
    the string and free of dots, is ignored: [1.2.3.4:8080] converts like
    [1.2.3.4]. *)
Theorem ipToLong_ignores_trailing_text
    (front d : jsstring) (x : N) (rest : jsstring) :
  digitString d = true → isDigit x = false → 46%N ∉ x :: rest →
  ipToLong (VString (front ++ 46%N :: d ++ x :: rest))
  = ipToLong (VString (front ++ 46%N :: d)).
Proof.
  intros Hd Hx Hrest. rewrite !ipToLong_unfold.
  assert (Hdot : 46%N ∉ d) by (apply digitString_no_sep; auto).
  rewrite !split_app_last.
  - rewrite !fold_left_app. cbn [fold_left]. unfold pack.
    by rewrite parseInt_junk.
  - done.
  - intros [? | ?]%elem_of_app; done.
Qed.

Lemma ipToLong_ignores_trailing_text_witness :
  ipToLong (str "1.2.3.4:8080") = ipToLong (str "1.2.3.4")
  ∧ ipToLong (str "1.2.3.4") = Ok (Fin 16909060).
Proof.
  split; [| by vm_compute].
  apply (ipToLong_ignores_trailing_text (lit "1.2.3") (lit "4") 58%N (lit "8080")).
  - reflexivity.
  - reflexivity.
  - apply (bool_decide_unpack _). by vm_compute.
Defined.

(** X7: the number of segments is not checked, and only the last four
    count: whatever stands before the last four octets is shifted out of the
    32 bits. *)
Theorem ipToLong_keeps_last_four_octets (front a b c d : jsstring) :
  octetString a = true → octetString b = true →
  octetString c = true → octetString d = true →
  ipToLong (VString (front ++ 46%N :: dotted a b c d))
  = Ok (Fin (digitsValue a * 2 ^ 24 + digitsValue b * 2 ^ 16
             + digitsValue c * 2 ^ 8 + digitsValue d))
  ∧ ipToLong (VString (front ++ 46%N :: dotted a b c d))
    = ipToLong (VString (dotted a b c d)).
Proof.
  intros Ha Hb Hc Hd.
  assert (Hfour : ∀ r, Ok (Fin (toUint32 (fold_left pack [a; b; c; d] r)))
                       = (Ok (Fin (digitsValue a * 2 ^ 24 + digitsValue b * 2 ^ 16
                                   + digitsValue c * 2 ^ 8 + digitsValue d))
                          : result number))
    by (intros r; by rewrite fold_pack_four).
  rewrite !ipToLong_unfold, split_app_sep, split_dotted by done.
  rewrite fold_left_app, !Hfour. done.
Qed.

Lemma ipToLong_keeps_last_four_octets_witness :
  ipToLong (str "9.9.1.2.3.4") = Ok (Fin 16909060)
  ∧ ipToLong (str "9.9.1.2.3.4") = ipToLong (str "1.2.3.4").
Proof.
  apply (ipToLong_keeps_last_four_octets (lit "9.9")
           (lit "1") (lit "2") (lit "3") (lit "4")); reflexivity.
Defined.

(** ** Further properties of the collector and of the filter *)

Section Pipeline.

Lemma collect_clean entries x : x ∈ collect entries → cleanLine x.
Proof.
  intros (Hne & line & Hline & <-)%collect_elem.
  split; [done |]. split; [apply trim_idem |].
  intros Hlf%trim_elem. revert Hlf.
  unfold allLines in Hline. apply list_elem_of_bind in Hline as (text & Hl & _).
  by apply (splitLines_no_lf text).
Qed.

Lemma cleanLine_joinable x :
  cleanLine x → (10%N ∉ x) ∧ (last x ≠ Some 13%N).
Proof.
  intros (_ & Hfix & Hlf). split; [done |]. intros Hlast.
  by apply (proj2 (trim_ends x Hfix)) in Hlast.
Qed.

Lemma addLine_prefix ipSet line : ipSet `prefix_of` addLine ipSet line.
Proof.
  unfold addLine, set_add. destruct (truthy _); [| done].
  case_bool_decide; [done | by apply prefix_app_r].
Qed.

Lemma fold_addLine_prefix lines ipSet :
  ipSet `prefix_of` fold_left addLine lines ipSet.
Proof.
  revert ipSet. induction lines as [| l lines IH]; intros ipSet; [done |].
  cbn [fold_left]. etrans; [apply (addLine_prefix ipSet l) | apply IH].
Qed.

(** Adding fresh clean lines appends them in order. *)
Lemma fold_addLine_clean l acc :
  NoDup (acc ++ l) → Forall cleanLine l → fold_left addLine l acc = acc ++ l.
Proof.
  intros Hnd Hall. revert acc Hnd.
  induction Hall as [| x l (Hne & Hfix & _) _ IH]; intros acc Hnd.
  - by rewrite app_nil_r.
  - cbn [fold_left]. unfold addLine at 2. rewrite Hfix.
    destruct x as [| c t]; [done |]. cbn [truthy]. unfold set_add.
    rewrite bool_decide_eq_false_2.
    + rewrite IH; rewrite <- app_assoc; done.
    + apply NoDup_app in Hnd as (_ & Hdisj & _). intros Hin.
      apply (Hdisj _ Hin). by left.
Qed.

Lemma filterWith_sublist test cidrs ips :
  filterWith test cidrs ips `sublist_of` ips.
Proof.
  unfold filterWith. induction ips as [| ip ips IH]; [constructor |].
  cbn [List.filter]. destruct (keeps test cidrs ip); by constructor.
Qed.

(** A list of values that are all strings. *)
Lemma all_strings (vs : list value) :
  (∀ v, v ∈ vs → ∃ s, v = VString s) → ∃ l, vs = VString <$> l.
Proof.
  induction vs as [| v vs IH]; intros Hall; [by exists [] |].
  destruct (Hall v ltac:(left)) as [s ->].
  destruct IH as [l ->]; [intros; apply Hall; by right |].
  by exists (s :: l).
Qed.

(** What the run writes out: strings, each an unmatched member of the
    collected set, none twice. *)
Lemma output_strings entries (draw : nat → nat) :
  ∃ l, shuffle draw (filterIps (VString <$> collect entries)) = VString <$> l
       ∧ NoDup l
       ∧ ∀ x, x ∈ l ↔ x ∈ collect entries
                      ∧ keeps isIpInCidr bannedCidrs (VString x) = true.
Proof.
  set (out := shuffle draw (filterIps (VString <$> collect entries))).
  assert (Hperm : out ≡ₚ filterIps (VString <$> collect entries))
    by apply shuffleFrom_Permutation.
  assert (Helem : ∀ v, v ∈ out ↔ v ∈ VString <$> collect entries
                                 ∧ keeps isIpInCidr bannedCidrs v = true).
  { intros v. rewrite Hperm. apply filterWith_elem. }
  destruct (all_strings out) as [l Hl].
  { intros v [(s & -> & _)%list_elem_of_fmap _]%Helem. by exists s. }
  exists l. split; [exact Hl |]. split.
  - apply (proj1 (NoDup_fmap VString l)). rewrite <- Hl, Hperm.
    apply (sublist_NoDup _ (VString <$> collect entries));
      [| apply filterWith_sublist].
    apply NoDup_fmap_2; [apply _ | apply collect_NoDup].
  - intros x. rewrite <- (list_elem_of_fmap_inj VString l x), <- Hl, Helem.
    pose proof (list_elem_of_fmap_inj VString (collect entries) x) as Hinj.
    tauto.
Qed.

End Pipeline.

(** ** Further properties: collector, filter and output *)

(** X8: the filter keeps exactly the addresses of its input on which
    [isIpInCidr] returns false for every banned range; it keeps them in
    their order and adds no duplicate. *)
Theorem filter_keeps_exactly_unmatched (ips : list jsstring) :
  filterIps (VString <$> ips) `sublist_of` (VString <$> ips)
  ∧ (∀ A, VString A ∈ filterIps (VString <$> ips)
          ↔ A ∈ ips
            ∧ ∀ R, R ∈ bannedCidrs →
                   isIpInCidr (VString A) (VString R) = Ok false)
  ∧ (NoDup ips → NoDup (filterIps (VString <$> ips))).
Proof.
  split; [apply filterWith_sublist |]. split.
  - intros A. unfold filterIps.
    rewrite filterWith_elem, keeps_true_iff.
    by rewrite (list_elem_of_fmap_inj VString).
  - intros Hnd. apply (sublist_NoDup _ (VString <$> ips));
      [| apply filterWith_sublist].
    by apply NoDup_fmap_2; [apply _ |].
Qed.

Lemma filter_keeps_exactly_unmatched_witness :
  str "8.8.8.8" ∈ filterIps [str "104.16.0.1"; str "8.8.8.8"; str "1.2.3.4"]
  ∧ NoDup (filterIps [str "104.16.0.1"; str "8.8.8.8"; str "1.2.3.4"]).
Proof.
  destruct (filter_keeps_exactly_unmatched
              [lit "104.16.0.1"; lit "8.8.8.8"; lit "1.2.3.4"])
    as (_ & Helem & Hnd).
  split.
  - apply Helem. split; [right; left |].
    apply (proj1 (Forall_forall _ _)).
    repeat (apply Forall_cons; split; [by vm_compute |]). constructor.
  - apply Hnd. apply (bool_decide_unpack _). by vm_compute.
Defined.

(** X9: every member of the collected set is a non-empty string without a
    line feed that equals its own trimming, so it neither starts nor ends
    with white space. *)
Theorem collected_lines_are_clean (entries : list entry) (x : jsstring) :
  x ∈ collect entries →
  x ≠ [] ∧ trim x = x ∧ (10%N ∉ x)
  ∧ (∀ c, head x = Some c → isWhiteSpace c = false)
  ∧ (∀ c, last x = Some c → isWhiteSpace c = false).
Proof.
  intros (Hne & Hfix & Hlf)%collect_clean.
  repeat (split; [done |]). by apply trim_ends.
Qed.

Lemma collected_lines_are_clean_witness :
  trim (lit "8.8.8.8") = lit "8.8.8.8"
  ∧ collect [(lit "a.txt", Some (lit "  8.8.8.8 " ++ [9%N; 13%N; 10%N]))]
    = [lit "8.8.8.8"].
Proof.
  split; [| by vm_compute].
  apply (collected_lines_are_clean
           [(lit "a.txt", Some (lit "  8.8.8.8 " ++ [9%N; 13%N; 10%N]))]).
  apply (bool_decide_unpack _). by vm_compute.
Defined.

(** X10: files are folded in one after the other: what earlier files put
    into the set stays in place and later files only append.  An entry whose
    read fails, or whose name does not end in [.txt], changes nothing. *)
Theorem collect_appends_and_skips
    (before after : list entry) (name : jsstring) (read : option jsstring) :
  collect before `prefix_of` collect (before ++ after)
  ∧ (read = None ∨ endsWith name (lit ".txt") = false →
     collect (before ++ (name, read) :: after) = collect (before ++ after)).
Proof.
  unfold collect. rewrite !fold_left_app. split.
  - rewrite !fold_addFile. apply fold_addLine_prefix.
  - intros Hskip. cbn [fold_left]. f_equal. unfold addFile.
    destruct Hskip as [-> | ->]; [by destruct (endsWith _ _) | done].
Qed.

Lemma collect_appends_and_skips_witness :
  collect [(lit "a.txt", Some (lit "1.2.3.4")); (lit "b.txt", None);
           (lit "c.txt", Some (lit "8.8.8.8"))]
  = collect [(lit "a.txt", Some (lit "1.2.3.4"));
             (lit "c.txt", Some (lit "8.8.8.8"))].
Proof.
  apply (collect_appends_and_skips [(lit "a.txt", Some (lit "1.2.3.4"))]
           [(lit "c.txt", Some (lit "8.8.8.8"))] (lit "b.txt") None).
  by left.
Defined.

(** X11: the text that the run writes out reads back as it was written:
    collecting it again from a [.txt] file gives exactly the written
    addresses, in the written order. *)
Theorem output_reads_back
    (entries : list entry) (draw : nat → nat) (name : jsstring) :
  endsWith name (lit ".txt") = true →
  ∃ l, shuffle draw (filterIps (VString <$> collect entries)) = VString <$> l
       ∧ collect [(name, Some (join [10%N] (VString <$> l)))] = l.
Proof.
  intros Hname.
  destruct (output_strings entries draw) as (l & Hl & Hnd & Helem).
  exists l. split; [exact Hl |].
  assert (Hclean : Forall cleanLine l).
  { apply Forall_forall. intros x [Hx _]%Helem. by apply (collect_clean entries). }
  unfold collect. cbn [fold_left addFile]. rewrite Hname.
  destruct l as [| x l]; [reflexivity |].
  rewrite splitLines_join.
  - by apply fold_addLine_clean.
  - done.
  - eapply Forall_impl; [exact Hclean |]. apply cleanLine_joinable.
Qed.

Lemma output_reads_back_witness :
  collect [(lit "bestproxy.txt",
            Some (lit "8.8.8.8" ++ [10%N] ++ lit "1.2.3.4"))]
  = [lit "8.8.8.8"; lit "1.2.3.4"].
Proof.
  destruct (output_reads_back
              [(lit "a.txt", Some (lit "1.2.3.4" ++ [10%N] ++ lit "104.16.0.1"
                                     ++ [10%N] ++ lit "8.8.8.8"))]
              (fun _ => 0%nat) (lit "bestproxy.txt"))
    as (l & Hl & Hback); [reflexivity |].
  vm_compute in Hl.
  destruct l as [| x [| y [| z l]]]; try discriminate.
  injection Hl as <- <-. exact Hback.
Defined.

(** ** Further properties of the process *)

Section Runs.

(** The publish step with its configuration present, as one equation. *)
Lemma upload_run w path text repoPath n :
  truthy (env_GITHUB_TOKEN w) = true → truthy (env_GITHUB_REPOSITORY w) = true →
  ∃ payload : gmap string value,
    uploadToGitHub w path text repoPath n
    = ([FsReadFile path; Http GET (apiUrlOf w repoPath) None;
        Http PUT (apiUrlOf w repoPath) (Some payload)],
       if put_ok w then Done tt else Exited 1)
    ∧ payload !! "content" = Some (VString (base64 w text))
    ∧ payload !! "message" = Some (VString (commitMessageOf w repoPath n))
    ∧ payload !! "sha"
      = match sha_lookup w with
        | Responded (Some sha) => if truthy sha then Some sha else None
        | _ => None
        end.
Proof.
  intros Ht Hr. unfold uploadToGitHub. rewrite Ht, Hr.
  fold (commitMessageOf w repoPath n).
  set (sha := match sha_lookup w with
              | Responded (Some sha) => if truthy sha then sha else VString []
              | _ => VString []
              end).
  set (base := <["content" := _]> (<["message" := _]> ∅)).
  exists (if truthy sha then <["sha" := sha]> base else base).
  split; [| split; [| split]].
  - unfold orExit, emit, exit. destruct (put_ok w); reflexivity.
  - subst base. destruct (truthy sha);
      rewrite ?(lookup_insert_ne _ "sha") by done; by rewrite lookup_insert_eq.
  - subst base. destruct (truthy sha);
      rewrite ?(lookup_insert_ne _ "sha"), (lookup_insert_ne _ "content") by done;
      by rewrite lookup_insert_eq.
  - subst sha base.
    destruct (sha_lookup w) as [[sha |] | status].
    + destruct (truthy sha) eqn:Hs.
      * rewrite Hs. by rewrite lookup_insert_eq.
      * cbn [truthy]. by rewrite !lookup_insert_ne, lookup_empty.
    + cbn [truthy]. by rewrite !lookup_insert_ne, lookup_empty.
    + cbn [truthy]. by rewrite !lookup_insert_ne, lookup_empty.
Qed.

End Runs.

(** X12: in the publish step with its configuration present, one lookup is
    followed by one write to the same address, whatever the lookup answers;
    the payload carries the encoded text, and a [sha] exactly when the
    lookup answered with a non-empty one (not for a response without [sha],
    nor for a rejection of any status); the step fails only if the write
    does. *)
Theorem upload_always_writes_once
    (w : world) (path text repoPath : jsstring) (n : nat) :
  truthy (env_GITHUB_TOKEN w) = true →
  truthy (env_GITHUB_REPOSITORY w) = true →
  ∃ payload : gmap string value,
    networkRequests (trace (uploadToGitHub w path text repoPath n))
    = [Http GET (apiUrlOf w repoPath) None;
       Http PUT (apiUrlOf w repoPath) (Some payload)]
    ∧ payload !! "content" = Some (VString (base64 w text))
    ∧ (is_Some (payload !! "sha")
       ↔ ∃ T, T ≠ [] ∧ sha_lookup w = Responded (Some (VString T)))
    ∧ exitCode (uploadToGitHub w path text repoPath n)
      = (if put_ok w then 0 else 1).
Proof.
  intros Ht Hr.
  destruct (upload_run w path text repoPath n Ht Hr)
    as (payload & -> & Hcontent & _ & Hsha).
  exists payload. split; [reflexivity |]. split; [exact Hcontent |]. split.
  - rewrite Hsha. destruct (sha_lookup w) as [[[| [| c t]] |] | status];
      cbn [truthy]; split;
      try (intros [? ?]; discriminate);
      try (intros (T & ? & ?); congruence).
    + intros _. exists (c :: t). done.
    + intros _. by eexists.
  - unfold exitCode. by destruct (put_ok w).
Qed.

Lemma upload_always_writes_once_witness :
  exitCode (uploadToGitHub
              (sampleWorld (str "t0k3n") (str "owner/repo") (Rejected (Some 500)))
              outputFilePath (lit "8.8.8.8") repoOutputPath 1) = 0
  ∧ length (networkRequests (trace (uploadToGitHub
              (sampleWorld (str "t0k3n") (str "owner/repo") (Rejected (Some 500)))
              outputFilePath (lit "8.8.8.8") repoOutputPath 1))) = 2%nat.
Proof.
  destruct (upload_always_writes_once
              (sampleWorld (str "t0k3n") (str "owner/repo") (Rejected (Some 500)))
              outputFilePath (lit "8.8.8.8") repoOutputPath 1)
    as (payload & Hreq & _ & _ & Hexit); [reflexivity .. |].
  split; [exact Hexit | by rewrite Hreq].
Defined.

(** The exit status and the network requests of a run, by cases on the
    world. *)
Lemma main_shape (w : world) :
  exitCode (main w) = (if stagesOk w && configOk w && put_ok w then 0 else 1)
  ∧ (stagesOk w && configOk w = false →
     networkRequests (trace (main w)) = [Http GET downloadUrl None])
  ∧ (stagesOk w && configOk w = true →
     ∃ payload : gmap string value,
       networkRequests (trace (main w))
       = [Http GET downloadUrl None;
          Http GET (apiUrlOf w repoOutputPath) None;
          Http PUT (apiUrlOf w repoOutputPath) (Some payload)]
       ∧ payload !! "content"
         = Some (VString (base64 w (join [10%N] (writtenList w))))
       ∧ payload !! "message"
         = Some (VString (commitMessageOf w repoOutputPath
                            (length (writtenList w))))).
Proof.
  unfold stagesOk, configOk.
  destruct (truthy (env_GITHUB_TOKEN w)) eqn:Ht;
    [destruct (truthy (env_GITHUB_REPOSITORY w)) eqn:Hr |].
  - destruct (upload_run w outputFilePath (join [10%N] (writtenList w))
                repoOutputPath (length (writtenList w)) Ht Hr)
      as (payload & Hup & Hcontent & Hmessage & _).
    unfold main. fold (writtenList w). rewrite Hup.
    unfold exitCode, trace, networkRequests, orExit, emit, emits, exit.
    destruct (download_ok w), (extract_ok w), (outputDirExists w), (write_ok w),
      (put_ok w);
      cbn [mbind io_bind mret io_ret fst snd app andb orb negb];
      rewrite ?app_nil_r, ?List.filter_app;
      cbn [List.filter isHttp app];
      rewrite ?List.filter_app; fold (networkRequests);
      rewrite ?networkRequests_reads;
      (split; [reflexivity |]); (split; [try done | try done]);
      intros _; exists payload; by split.
  - destruct (main_missing_config w (or_intror Hr)) as [Hexit Hreq].
    rewrite Hexit, Hreq, !andb_false_r. cbn [andb].
    split; [done |]. split; [| done]. intros _.
    by destruct (download_ok w), (extract_ok w), (write_ok w).
  - destruct (main_missing_config w (or_introl Ht)) as [Hexit Hreq].
    rewrite Hexit, Hreq, !andb_false_r. cbn [andb].
    split; [done |]. split; [| done]. intros _.
    by destruct (download_ok w), (extract_ok w), (write_ok w).
Qed.

Lemma fileWrites_reads names : fileWrites (FsReadFile <$> names) = [].
Proof. induction names; done. Qed.

(** The output file is written once, after download and extraction. *)
Lemma main_writes (w : world) :
  fileWrites (trace (main w))
  = if download_ok w && extract_ok w
    then [FsWriteFile outputFilePath (join [10%N] (writtenList w))] else [].
Proof.
  assert (Hup : fileWrites
                  (uploadToGitHub w outputFilePath (join [10%N] (writtenList w))
                     repoOutputPath (length (writtenList w))).1 = []).
  { destruct (truthy (env_GITHUB_TOKEN w)) eqn:Ht;
      [destruct (truthy (env_GITHUB_REPOSITORY w)) eqn:Hr |].
    - destruct (upload_run w outputFilePath (join [10%N] (writtenList w))
                  repoOutputPath (length (writtenList w)) Ht Hr)
        as (payload & -> & _). reflexivity.
    - by rewrite upload_missing_config by auto.
    - by rewrite upload_missing_config by auto. }
  unfold main. fold (writtenList w).
  destruct (uploadToGitHub w outputFilePath (join [10%N] (writtenList w))
              repoOutputPath (length (writtenList w))) as [t o].
  cbn [fst] in Hup.
  unfold trace, fileWrites, orExit, emit, emits, exit in *.
  destruct (download_ok w), (extract_ok w), (outputDirExists w), (write_ok w);
    cbn [mbind io_bind mret io_ret fst snd app andb];
    rewrite ?app_nil_r, ?List.filter_app;
    cbn [List.filter isFsWrite app];
    rewrite ?List.filter_app, ?Hup; fold (fileWrites);
    rewrite ?fileWrites_reads;
    cbn [List.filter fileWrites isFsWrite app]; rewrite ?Hup; done.
Qed.

(** X13: the exit status of a run is 0 when the download, the extraction,
    the local write and the upload all succeed and both variables are set,
    and 1 otherwise.  The store is contacted (one lookup, then one write)
    exactly when the three local stages succeed and both variables are set;
    in every other run the download is the only request. *)
Theorem main_exit_status_and_requests (w : world) :
  exitCode (main w) = (if stagesOk w && configOk w && put_ok w then 0 else 1)
  ∧ (stagesOk w && configOk w = false →
     networkRequests (trace (main w)) = [Http GET downloadUrl None])
  ∧ (stagesOk w && configOk w = true →
     ∃ payload : gmap string value,
       networkRequests (trace (main w))
       = [Http GET downloadUrl None;
          Http GET (apiUrlOf w repoOutputPath) None;
          Http PUT (apiUrlOf w repoOutputPath) (Some payload)]).
Proof.
  destruct (main_shape w) as (Hexit & Hfail & Hok).
  split; [exact Hexit |]. split; [exact Hfail |].
  intros H. destruct (Hok H) as (payload & Hreq & _). by exists payload.
Qed.

Lemma main_exit_status_and_requests_witness :
  exitCode (main (sampleWorld (str "t0k3n") (str "owner/repo") (Responded None)))
  = 0
  ∧ length (networkRequests
              (trace (main (sampleWorld (str "t0k3n") (str "owner/repo")
                              (Responded None))))) = 3%nat
  ∧ networkRequests
      (trace (main (sampleWorld (str "t0k3n") (VString []) (Responded None))))
    = [Http GET downloadUrl None].
Proof.
  destruct (main_exit_status_and_requests
              (sampleWorld (str "t0k3n") (str "owner/repo") (Responded None)))
    as (Hexit & _ & Hok).
  destruct (Hok eq_refl) as (payload & Hreq).
  destruct (main_exit_status_and_requests
              (sampleWorld (str "t0k3n") (VString []) (Responded None)))
    as (_ & Hfail & _).
  split; [exact Hexit |]. split; [by rewrite Hreq | exact (Hfail eq_refl)].
Defined.

(** X14: what a run writes to the output file, and what it uploads, is the
    same text: the surviving addresses joined by line feeds.  Each of them
    is a member of the collected set on which [isIpInCidr] returns false for
    every banned range, and none occurs twice.  The file is written once,
    and only after download and extraction have succeeded. *)
Theorem published_addresses_are_unmatched (w : world) :
  ∃ l : list jsstring,
    writtenList w = VString <$> l
    ∧ NoDup l
    ∧ (∀ x, x ∈ l
            ↔ x ∈ collect (workDirEntries w)
              ∧ ∀ R, R ∈ bannedCidrs →
                     isIpInCidr (VString x) (VString R) = Ok false)
    ∧ fileWrites (trace (main w))
      = (if download_ok w && extract_ok w
         then [FsWriteFile outputFilePath (join [10%N] (VString <$> l))]
         else [])
    ∧ (∀ url payload,
         Http PUT url (Some payload) ∈ trace (main w) →
         payload !! "content"
         = Some (VString (base64 w (join [10%N] (VString <$> l))))).
Proof.
  destruct (output_strings (workDirEntries w) (draw w)) as (l & Hl & Hnd & Helem).
  fold (writtenList w) in Hl.
  exists l. split; [exact Hl |]. split; [exact Hnd |]. split.
  - intros x. rewrite Helem, keeps_true_iff. reflexivity.
  - split; [rewrite <- Hl; apply main_writes |].
    intros url payload Hin. rewrite <- Hl.
    assert (Hreq : Http PUT url (Some payload)
                   ∈ networkRequests (trace (main w))).
    { unfold networkRequests. apply list_elem_of_In, filter_In.
      split; [by apply list_elem_of_In | done]. }
    destruct (main_shape w) as (_ & Hfail & Hok).
    destruct (stagesOk w && configOk w) eqn:Hc.
    + destruct (Hok eq_refl) as (payload' & Hreq' & Hcontent & _).
      rewrite Hreq' in Hreq.
      apply elem_of_cons in Hreq as [Hreq | Hreq]; [discriminate |].
      apply elem_of_cons in Hreq as [Hreq | Hreq]; [discriminate |].
      apply list_elem_of_singleton in Hreq. by injection Hreq as -> ->.
    + rewrite (Hfail eq_refl) in Hreq.
      apply list_elem_of_singleton in Hreq. discriminate.
Qed.

Lemma published_addresses_are_unmatched_witness :
  fileWrites (trace (main (sampleWorld (str "t0k3n") (str "owner/repo")
                             (Responded None))))
  = [FsWriteFile outputFilePath (lit "8.8.8.8" ++ [10%N] ++ lit "1.2.3.4")].
Proof.
  destruct (published_addresses_are_unmatched
              (sampleWorld (str "t0k3n") (str "owner/repo") (Responded None)))
    as (l & Hl & _ & _ & Hwrite & _).
  vm_compute in Hl.
  destruct l as [| x [| y [| z l]]]; try discriminate Hl.
  injection Hl as <- <-. exact Hwrite.
Defined.

(** ** Further properties of the shuffle *)

Section ShuffleReach.

Context {A : Type}.

Lemma swap_app i j (l t : list A) :
  (i < length l)%nat → (j < length l)%nat →
  swap i j (l ++ t) = swap i j l ++ t.
Proof.
  intros Hi Hj. unfold swap. rewrite !lookup_app_l by done.
  destruct (l !! i), (l !! j); try done.
  by rewrite !insert_app_l by (rewrite ?length_insert; done).
Qed.

(** The iterations for the indices up to [i] touch only the first [i + 1]
    elements. *)
Lemma shuffleFrom_app draw i (l t : list A) :
  (i < length l)%nat → (∀ k, (k ≤ i)%nat → (draw k ≤ k)%nat) →
  shuffleFrom draw i (l ++ t) = shuffleFrom draw i l ++ t.
Proof.
  revert l. induction i as [| i IH]; intros l Hi Hdraw; [done |].
  cbn [shuffleFrom]. pose proof (Hdraw (S i) ltac:(lia)).
  rewrite swap_app by lia.
  apply IH; [rewrite swap_length; lia | intros k Hk; apply Hdraw; lia].
Qed.

(** They read the draws for those indices only. *)
Lemma shuffleFrom_ext draw draw' i (l : list A) :
  (∀ k, (1 ≤ k ≤ i)%nat → draw k = draw' k) →
  shuffleFrom draw i l = shuffleFrom draw' i l.
Proof.
  revert l. induction i as [| i IH]; intros l Heq; [done |].
  cbn [shuffleFrom]. rewrite (Heq (S i)) by lia.
  apply IH. intros k Hk. apply Heq. lia.
Qed.

(** After the swap the element drawn sits at index [i]. *)
Lemma swap_lookup i j (a : list A) x :
  (i < length a)%nat → a !! j = Some x → swap i j a !! i = Some x.
Proof.
  intros Hi Hj. unfold swap.
  destruct (lookup_lt_is_Some_2 a i Hi) as [y Hy]. rewrite Hy, Hj.
  destruct (decide (j = i)) as [-> | Hne].
  - rewrite list_lookup_insert_eq by (rewrite length_insert; lia). congruence.
  - rewrite list_lookup_insert_ne by done.
    by rewrite list_lookup_insert_eq by lia.
Qed.

Lemma snoc_decompose (l : list A) m :
  length l = S m → ∃ l' z, l = l' ++ [z] ∧ length l' = m.
Proof.
  destruct l as [| z l' _] using rev_ind; [discriminate |].
  rewrite length_app. cbn. intros Hlen. exists l', z. split; [done | lia].
Qed.

Lemma shuffleFrom_reaches n :
  ∀ a p : list A,
    length a = S n → p ≡ₚ a →
    ∃ draw, (∀ i, (i ≤ n)%nat → (draw i ≤ i)%nat) ∧ shuffleFrom draw n a = p.
Proof.
  induction n as [| n IH]; intros a p Hlen Hperm.
  - exists (fun _ => O). split; [intros; lia |]. cbn.
    destruct a as [| x [| y a]]; try discriminate.
    symmetry. by apply Permutation_singleton_r.
  - assert (Hlenp : length p = S (S n)) by (by rewrite Hperm).
    destruct (snoc_decompose p (S n) Hlenp) as (p' & x & -> & Hlenp').
    assert (Hx : x ∈ a).
    { rewrite <- Hperm. apply elem_of_app. right. by left. }
    apply list_elem_of_lookup_1 in Hx as [j Hj].
    pose proof (lookup_lt_Some _ _ _ Hj) as Hjlt.
    pose proof (swap_lookup (S n) j a x ltac:(lia) Hj) as Hlast.
    pose proof (swap_Permutation (S n) j a) as Hperm1.
    destruct (snoc_decompose (swap (S n) j a) (S n)) as (a1 & z & Hsw & Hlen1);
      [rewrite swap_length; lia |].
    rewrite Hsw in Hlast, Hperm1.
    rewrite list_lookup_middle in Hlast by lia. injection Hlast as ->.
    assert (Hrest : p' ≡ₚ a1).
    { apply (Permutation_app_inv_r [x]). by rewrite Hperm, Hperm1. }
    destruct (IH a1 p' Hlen1 Hrest) as (draw' & Hdraw' & Hshuffle).
    exists (fun i => if decide (i = S n) then j else draw' i). split.
    + intros i Hi. case_decide; [lia | apply Hdraw'; lia].
    + cbn [shuffleFrom]. rewrite decide_True by done. rewrite Hsw.
      rewrite shuffleFrom_app.
      * f_equal. rewrite <- Hshuffle. apply shuffleFrom_ext.
        intros k Hk. by rewrite decide_False by lia.
      * lia.
      * intros k Hk. rewrite decide_False by lia. by apply Hdraw'.
Qed.

End ShuffleReach.

(** X15: the loop can produce every ordering: for each rearrangement of the
    array there are draws, each within [0, i] for its index [i], under which
    the shuffle returns exactly that rearrangement. *)
Theorem shuffle_reaches_every_permutation {A} (a p : list A) :
  p ≡ₚ a →
  ∃ draw, (∀ i, (1 ≤ i < length a)%nat → (draw i ≤ i)%nat) ∧ shuffle draw a = p.
Proof.
  intros Hperm. unfold shuffle. destruct a as [| x a].
  - apply Permutation_nil_r in Hperm as ->. exists (fun _ => O).
    split; [cbn; intros; lia | reflexivity].
  - destruct (shuffleFrom_reaches (length a) (x :: a) p eq_refl Hperm)
      as (draw & Hdraw & Hshuffle).
    exists draw. split.
    + intros i Hi. apply Hdraw. cbn in Hi. lia.
    + cbn [length]. by rewrite Nat.sub_succ, Nat.sub_0_r.
Qed.

Lemma shuffle_reaches_every_permutation_witness :
  ∃ draw, shuffle draw [1; 2; 3]%nat = [3; 1; 2]%nat.
Proof.
  destruct (shuffle_reaches_every_permutation [1; 2; 3]%nat [3; 1; 2]%nat)
    as (draw & _ & Hshuffle).
  - change [3; 1; 2]%nat with ([3]%nat ++ [1; 2]%nat).
    change [1; 2; 3]%nat with ([1; 2]%nat ++ [3]%nat).
    apply Permutation_app_comm.
  - by exists draw.
Defined.

(** ** Further properties: the banned blocks and the commit message *)

Section Blocks.

Lemma inBlock_decide n lo hi :
  inBlock n (lo, hi) = bool_decide (lo ≤ n < hi + 1).
Proof.
  unfold inBlock. cbn [fst snd].
  destruct (Z.leb_spec lo n), (Z.leb_spec n hi); case_bool_decide; done || lia.
Qed.

(** [isIpInCidr] against a range string that stands for a block. *)
Lemma isIpInCidr_blockOf ip n cidr block :
  ipToLong (VString ip) = Ok (Fin n) → blockOf cidr = Some block →
  isIpInCidr (VString ip) (VString cidr) = Ok (inBlock n block).
Proof.
  intros Hn Hblock.
  destruct (isIpInCidr_unfold ip cidr)
    as (range & rest & a & b & Hs & Ha & Hra & Hb & Hrb & Hr).
  assert (a = n) as -> by congruence.
  unfold blockOf in Hblock. rewrite Hs in Hblock.
  destruct rest as [| bits [| ? ?]]; try discriminate.
  destruct (digitString bits) eqn:Hbits; [| discriminate].
  destruct (Z.leb_spec 1 (digitsValue bits)); [| discriminate].
  destruct (Z.leb_spec (digitsValue bits) 32); [| discriminate].
  cbn [andb] in Hblock. rewrite Hb in Hblock. injection Hblock as <-.
  rewrite Hr. change (element [range; bits] 1) with (VString bits).
  rewrite (maskOf_prefix (VString bits) (digitsValue bits));
    [| apply parseInt_digits; [done | lia] | lia].
  rewrite band_eq by (done || apply cidrMask_range; lia).
  rewrite inBlock_decide. f_equal. apply bool_decide_ext.
  rewrite !land_cidrMask by lia.
  rewrite same_block by (apply Z.pow_pos_nonneg; lia). lia.
Qed.

Lemma keeps_blocks ip n cidrs blocks :
  ipToLong (VString ip) = Ok (Fin n) →
  blockOf <$> cidrs = Some <$> blocks →
  keeps isIpInCidr cidrs (VString ip)
  = forallb (fun block => negb (inBlock n block)) blocks.
Proof.
  intros Hn. revert blocks.
  induction cidrs as [| c cidrs IH]; intros [| block blocks] Heq;
    try discriminate; [done |].
  injection Heq as Hc Hrest. specialize (IH blocks Hrest).
  unfold keeps in *. cbn [check forallb].
  rewrite (isIpInCidr_blockOf ip n c block Hn Hc).
  destruct (inBlock n block); [done |].
  by destruct (check isIpInCidr (VString ip) cidrs).
Qed.

Lemma main_put w url payload :
  Http PUT url (Some payload) ∈ trace (main w) →
  payload !! "content"
  = Some (VString (base64 w (join [10%N] (writtenList w))))
  ∧ payload !! "message"
    = Some (VString (commitMessageOf w repoOutputPath (length (writtenList w)))).
Proof.
  intros Hin.
  assert (Hreq : Http PUT url (Some payload)
                 ∈ networkRequests (trace (main w))).
  { unfold networkRequests. apply list_elem_of_In, filter_In.
    split; [by apply list_elem_of_In | done]. }
  destruct (main_shape w) as (_ & Hfail & Hok).
  destruct (stagesOk w && configOk w) eqn:Hc.
  - destruct (Hok eq_refl) as (payload' & Hreq' & Hcontent & Hmessage).
    rewrite Hreq' in Hreq.
    apply elem_of_cons in Hreq as [Hreq | Hreq]; [discriminate |].
    apply elem_of_cons in Hreq as [Hreq | Hreq]; [discriminate |].
    apply list_elem_of_singleton in Hreq. by injection Hreq as -> ->.
  - rewrite (Hfail eq_refl) in Hreq.
    apply list_elem_of_singleton in Hreq. discriminate.
Qed.

End Blocks.

(** X16: the filter with the shipped list drops exactly the addresses whose
    integer lies in one of fifteen blocks; every other string is kept.  The
    first block, that of the entry [101.x.x.x/15], is 0 to 131071
    ([0.0.0.0] to [0.1.255.255]), because the base [101.x.x.x] converts
    to 0. *)
Theorem filter_drops_exactly_the_banned_blocks (ip : jsstring) :
  ∃ n, ipToLong (VString ip) = Ok (Fin n) ∧ 0 ≤ n < 2 ^ 32
       ∧ blockOf <$> bannedCidrs = Some <$> bannedBlocks
       ∧ keeps isIpInCidr bannedCidrs (VString ip)
         = forallb (fun block => negb (inBlock n block)) bannedBlocks.
Proof.
  destruct (ipToLong_total ip) as (n & Hn & Hrange).
  assert (Hblocks : blockOf <$> bannedCidrs = Some <$> bannedBlocks)
    by (by vm_compute).
  exists n. repeat (split; [done |]). by apply keeps_blocks.
Qed.

(** X17: the count in the commit message of an upload is the number of
    addresses written, and, unless no address survived, the number of lines
    of the uploaded text. *)
Theorem commit_message_counts_written_addresses
    (w : world) (url : jsstring) (payload : gmap string value) :
  Http PUT url (Some payload) ∈ trace (main w) →
  ∃ l : list jsstring,
    writtenList w = VString <$> l
    ∧ payload !! "message"
      = Some (VString (commitMessageOf w repoOutputPath (length l)))
    ∧ payload !! "content"
      = Some (VString (base64 w (join [10%N] (VString <$> l))))
    ∧ (l ≠ [] → length (splitLines (join [10%N] (VString <$> l))) = length l).
Proof.
  intros [Hcontent Hmessage]%main_put.
  destruct (output_strings (workDirEntries w) (draw w)) as (l & Hl & _ & Helem).
  fold (writtenList w) in Hl. exists l. split; [exact Hl |].
  rewrite Hl, length_fmap in Hmessage. rewrite Hl in Hcontent.
  split; [exact Hmessage |]. split; [exact Hcontent |].
  intros Hne. rewrite splitLines_join; [done | done |].
  apply Forall_forall. intros x [Hx _]%Helem.
  by apply cleanLine_joinable, (collect_clean (workDirEntries w)).
Qed.

Lemma commit_message_counts_written_addresses_witness :
  ∃ payload : gmap string value,
    payload !! "message"
    = Some (VString (lit "Update BestProxy/bestproxy.txt - 2025-01-01 08:00:00 (Total IPs: 2)")).
Proof.
  set (w := sampleWorld (str "t0k3n") (str "owner/repo") (Responded None)).
  destruct (main_shape w) as (_ & _ & Hok).
  destruct (Hok eq_refl) as (payload & Hreq & _).
  exists payload.
  destruct (commit_message_counts_written_addresses w
              (apiUrlOf w repoOutputPath) payload)
    as (l & Hl & Hmessage & _).
  - assert (Hin : Http PUT (apiUrlOf w repoOutputPath) (Some payload)
                  ∈ networkRequests (trace (main w)))
      by (rewrite Hreq; do 2 right; left).
    unfold networkRequests in Hin.
    apply list_elem_of_In, filter_In in Hin as [Hin _].
    by apply list_elem_of_In.
  - vm_compute in Hl.
    destruct l as [| x [| y [| z l]]]; try discriminate Hl.
    exact Hmessage.
Defined.
